(** * event-soundness: the event-topic auditor of [event.py]

    A shallow embedding of [build_event_signature_map], [chunk_ranges],
    [fetch_logs] and the classification and exit-code policy of [main],
    with the properties stated about them.

    Conventions.
    - A Python [str] is held as the [string] of its UTF-8 bytes, so
      [keccak(text=s)] hashes the bytes of [s] as they stand.  Topics come
      out of [Web3.to_hex] and are ASCII, so slicing by characters and
      slicing by bytes agree on them.
    - Python integers are unbounded: block numbers are [Z], counters [nat].
    - [topic_map] is only ever looked up: it is a [gmap].  The three
      counters are iterated and serialised in insertion order: they are
      insertion-ordered association lists ([pydict]). *)

From Stdlib Require Import ZArith List Ascii String Lia Bool Sorted.
From stdpp Require Import base gmap strings list fin_maps sorting pretty.
Import ListNotations.

Local Open Scope string_scope.
Local Open Scope Z_scope.
Local Open Scope list_scope.

(** ** Bytes and hexadecimal text *)

(** A byte is a [Z] in [0, 256). *)
Abbreviation bytes := (list Z).

Definition bytes_of_string (s : string) : bytes :=
  map (fun c => Z.of_N (N_of_ascii c)) (list_ascii_of_string s).

Definition hex_digit (d : Z) : ascii :=
  ascii_of_N (Z.to_N (if d <? 10 then 48 + d else 87 + d)).

(** Two lower-case digits per byte, high nibble first ([bytes.hex()]). *)
Definition hex_byte (b : Z) : string :=
  String (hex_digit (Z.land (Z.shiftr b 4) 15))
    (String (hex_digit (Z.land b 15)) EmptyString).

Fixpoint hex (bs : bytes) : string :=
  match bs with
  | [] => EmptyString
  | b :: bs' => hex_byte b +:+ hex bs'
  end.

(** [Web3.to_hex] on a bytes value. *)
Definition to_hex (bs : bytes) : string := "0x" +:+ hex bs.

(** ** Keccak-256 ([eth_utils.keccak])

    The sponge over Keccak-f[1600] with rate 136 bytes and the original
    Keccak padding (0x01 ... 0x80).  The state is 25 lanes of 64 bits,
    lane (x, y) at index x + 5 y. *)
Module Keccak.

Definition mask64 : Z := Z.ones 64.

Definition rotl64 (v : Z) (n : Z) : Z :=
  Z.land (Z.lor (Z.shiftl v n) (Z.shiftr v (64 - n))) mask64.

Definition lane (st : list Z) (x y : nat) : Z :=
  nth (x mod 5 + 5 * (y mod 5))%nat st 0.

Definition positions : list nat := seq 0 25.

Definition column (st : list Z) (x : nat) : Z :=
  fold_right Z.lxor 0 (map (lane st x) (seq 0 5)).

Definition theta (st : list Z) : list Z :=
  let c := map (column st) (seq 0 5) in
  let d := map (fun x => Z.lxor (nth ((x + 4) mod 5)%nat c 0)
                           (rotl64 (nth ((x + 1) mod 5)%nat c 0) 1))
               (seq 0 5) in
  map (fun i => Z.lxor (nth i st 0) (nth (i mod 5)%nat d 0)) positions.

(** Rotation offsets, indexed like the state. *)
Definition rho_offsets : list Z :=
  [ 0;  1; 62; 28; 27;
   36; 44;  6; 55; 20;
    3; 10; 43; 25; 39;
   41; 45; 15; 21;  8;
   18;  2; 61; 56; 14].

(** rho and pi together: lane (x, y) of the result is lane
    (x + 3 y, x) of the argument, rotated by that lane's offset. *)
Definition rho_pi (st : list Z) : list Z :=
  map (fun i =>
         let x := (i mod 5)%nat in
         let y := (i / 5)%nat in
         let src := ((x + 3 * y) mod 5 + 5 * x)%nat in
         rotl64 (nth src st 0) (nth src rho_offsets 0))
      positions.

Definition chi (st : list Z) : list Z :=
  map (fun i =>
         let x := (i mod 5)%nat in
         let y := (i / 5)%nat in
         Z.lxor (lane st x y)
           (Z.land (Z.lxor (lane st (x + 1) y) mask64) (lane st (x + 2) y)))
      positions.

(** One step of the degree-8 LFSR that generates the round constants. *)
Definition lfsr_step (r : Z) : Z :=
  let r2 := Z.shiftl r 1 in
  if Z.testbit r2 8 then Z.lxor r2 369 else r2.

Definition rc_bit (t : nat) : bool :=
  Z.testbit (Nat.iter (t mod 255) lfsr_step 1) 0.

Definition round_constant (i : nat) : Z :=
  fold_right
    (fun j acc =>
       if rc_bit (j + 7 * i) then Z.lor acc (Z.shiftl 1 (2 ^ Z.of_nat j - 1))
       else acc)
    0 (seq 0 7).

Definition iota (i : nat) (st : list Z) : list Z :=
  match st with
  | [] => []
  | l0 :: rest => Z.lxor l0 (round_constant i) :: rest
  end.

Definition round (st : list Z) (i : nat) : list Z :=
  iota i (chi (rho_pi (theta st))).

Definition keccak_f (st : list Z) : list Z :=
  fold_left round (seq 0 24) st.

Definition rate : nat := 136.

(** Eight bytes, least significant first, make a lane. *)
Fixpoint lane_of_bytes (bs : bytes) : Z :=
  match bs with
  | [] => 0
  | b :: bs' => Z.lor (Z.land b 255) (Z.shiftl (lane_of_bytes bs') 8)
  end.

Definition bytes_of_lane (l : Z) : bytes :=
  map (fun k => Z.land (Z.shiftr l (8 * Z.of_nat k)) 255) (seq 0 8).

(** XOR one block of [rate] bytes into the first 17 lanes. *)
Definition absorb_block (st : list Z) (block : bytes) : list Z :=
  map (fun i =>
         if (i <? 17)%nat
         then Z.lxor (nth i st 0)
                (lane_of_bytes (firstn 8 (skipn (8 * i) block)))
         else nth i st 0)
      positions.

Definition pad (msg : bytes) : bytes :=
  let fill := (rate - 1 - (length msg mod rate))%nat in
  match fill with
  | O => msg ++ [129]
  | S k => msg ++ [1] ++ repeat 0 k ++ [128]
  end.

Fixpoint absorb (n : nat) (st : list Z) (padded : bytes) : list Z :=
  match n with
  | O => st
  | S n' =>
      let st' := keccak_f (absorb_block st (firstn rate padded)) in
      absorb n' st' (skipn rate padded)
  end.

Definition squeeze (st : list Z) : bytes :=
  flat_map (fun i => bytes_of_lane (nth i st 0)) (seq 0 4).

Definition keccak256 (msg : bytes) : bytes :=
  let padded := pad msg in
  squeeze (absorb (length padded / rate) (repeat 0 25) padded).

End Keccak.

(** [keccak(text=s)]: the digest of the UTF-8 bytes of [s]. *)
Definition keccak (s : string) : bytes :=
  Keccak.keccak256 (bytes_of_string s).


(** ** Python values

    What [json.load] returns.  [JNum] carries an integer literal; the code
    only ever tests a number for truth, never computes with it.  An object
    is held as its key/value pairs, keys distinct. *)
#[warnings="-register-all"]
Inductive json : Type :=
  | JNull
  | JBool (b : bool)
  | JNum (n : Z)
  | JStr (s : string)
  | JArr (items : list json)
  | JObj (fields : list (string * json)).

(** Python exceptions the program can meet.  [Failure] stands for any
    exception coming out of a collaborator (file system, JSON parser,
    RPC transport). *)
Inductive exn : Type :=
  | AttributeError
  | KeyError (key : string)
  | TypeError
  | ValueError (msg : string)
  | Failure (msg : string).

(** The result of a call.  [Unmodelled] marks the one path the embedding
    does not follow: an event whose name is a truthy value that is not a
    string (Python would format it with [str()] and keep the raw value as
    a dictionary key further on). *)
Inductive outcome (A : Type) : Type :=
  | Returns (a : A)
  | Raises (e : exn)
  | Unmodelled.
Arguments Returns {A} a.
Arguments Raises {A} e.
Arguments Unmodelled {A}.

(** What a collaborator answers: a value, or an exception. *)
Inductive reply (A : Type) : Type :=
  | Ok (a : A)
  | Fails (e : exn).
Arguments Ok {A} a.
Arguments Fails {A} e.

#[global] Instance outcome_ret : MRet outcome := fun A a => Returns a.
#[global] Instance outcome_bind : MBind outcome := fun A B f o =>
  match o with
  | Returns a => f a
  | Raises e => Raises e
  | Unmodelled => Unmodelled
  end.

(** ** Insertion-ordered dictionaries *)

Abbreviation pydict V := (list (string * V)).

Section PyDict.
Context {V : Type}.

(** [d.get(k)] *)
Fixpoint dict_get (d : pydict V) (k : string) : option V :=
  match d with
  | [] => None
  | (k', v) :: d' => if String.eqb k' k then Some v else dict_get d' k
  end.

(** [d[k] = v]: an existing key keeps its position, a new one goes last. *)
Fixpoint dict_set (d : pydict V) (k : string) (v : V) : pydict V :=
  match d with
  | [] => [(k, v)]
  | (k', v') :: d' =>
      if String.eqb k' k then (k', v) :: d' else (k', v') :: dict_set d' k v
  end.

Definition keys (d : pydict V) : list string := map fst d.
Definition values (d : pydict V) : list V := map snd d.

End PyDict.

(** [d[k] = d.get(k, 0) + n] *)
Definition dict_add (d : pydict nat) (k : string) (n : nat) : pydict nat :=
  dict_set d k (default 0%nat (dict_get d k) + n)%nat.

(** [bool(x)] on a loaded value. *)
Definition truthy (v : json) : bool :=
  match v with
  | JNull => false
  | JBool b => b
  | JNum n => negb (n =? 0)
  | JStr s => negb (String.eqb s "")
  | JArr items => match items with [] => false | _ => true end
  | JObj fields => match fields with [] => false | _ => true end
  end.

(** ** Signature mapper *)

Record SignatureEntry : Type := {
  name : string;
  inputs : list json;
  signature : string
}.

(** [i["type"]] for an entry [i] of an inputs list. *)
Definition input_type (i : json) : outcome json :=
  match i with
  | JObj fields =>
      match dict_get fields "type" with
      | Some v => Returns v
      | None => Raises (KeyError "type")
      end
  | _ => Raises TypeError
  end.

(** The generator [i["type"] for i in inputs], run to its end as
    [str.join] does before it looks at any item. *)
Fixpoint input_types (ins : list json) : outcome (list json) :=
  match ins with
  | [] => Returns []
  | i :: ins' =>
      t ← input_type i;
      ts ← input_types ins';
      Returns (t :: ts)
  end.

Fixpoint as_strings (vs : list json) : option (list string) :=
  match vs with
  | [] => Some []
  | JStr s :: vs' => cons s <$> as_strings vs'
  | _ :: _ => None
  end.

(** [",".join(items)]: every item has to be a [str]. *)
Definition join_comma (vs : list json) : outcome string :=
  match as_strings vs with
  | Some ss => Returns (String.concat "," ss)
  | None => Raises TypeError
  end.

(** The text of a truthy [name] inside the f-string. *)
Definition name_text (v : json) : outcome string :=
  match v with
  | JStr s => Returns s
  | _ => Unmodelled
  end.

Definition is_event (fields : pydict json) : bool :=
  match dict_get fields "type" with
  | Some (JStr s) => String.eqb s "event"
  | _ => false
  end.

Definition is_list (v : json) : bool :=
  match v with JArr _ => true | _ => false end.

Definition list_items (v : json) : list json :=
  match v with JArr items => items | _ => [] end.

Definition topic_of_signature (sig : string) : string :=
  "0x" +:+ hex (keccak sig).

(** One iteration of the loop over [abi]. *)
Definition build_step (topic_map : gmap string SignatureEntry) (item : json)
  : outcome (gmap string SignatureEntry) :=
  match item with
  | JObj fields =>
      if negb (is_event fields) then Returns topic_map
      else
        let name_v := default JNull (dict_get fields "name") in
        let inputs_v := default (JArr []) (dict_get fields "inputs") in
        if negb (truthy name_v) || negb (is_list inputs_v)
        then Returns topic_map
        else
          ts ← input_types (list_items inputs_v);
          arg_types ← join_comma ts;
          nm ← name_text name_v;
          let sig := nm +:+ "(" +:+ arg_types +:+ ")" in
          let topic := topic_of_signature sig in
          Returns (<[topic := {| name := nm; inputs := list_items inputs_v;
                                 signature := sig |}]> topic_map)
  | _ => Raises AttributeError
  end.

Fixpoint build_from (topic_map : gmap string SignatureEntry) (abi : list json)
  : outcome (gmap string SignatureEntry) :=
  match abi with
  | [] => Returns topic_map
  | item :: abi' => tm ← build_step topic_map item; build_from tm abi'
  end.

Definition build_event_signature_map (abi : list json)
  : outcome (gmap string SignatureEntry) :=
  build_from ∅ abi.

(** ** Range chunker

    The [while] loop, with a bound on the number of iterations: [None]
    means the bound was reached before the loop ended. *)
Definition rng_end (cur end_ step : Z) : Z := Z.min (cur + step - 1) end_.

Fixpoint chunk_loop (fuel : nat) (cur end_ step : Z) (ranges : list (Z * Z))
  : option (list (Z * Z)) :=
  match fuel with
  | O => None
  | S fuel' =>
      if cur <=? end_ then
        let b := rng_end cur end_ step in
        chunk_loop fuel' (b + 1) end_ step (ranges ++ [(cur, b)])
      else Some ranges
  end.

Definition chunk_ranges (fuel : nat) (start end_ step : Z)
  : option (list (Z * Z)) :=
  chunk_loop fuel start end_ step [].

(** ** Log fetcher *)

(** A log record: [lg.get("topics", [])], each topic a bytes value. *)
Record Log : Type := { topics : list bytes }.

(** The collaborators of a run, each as what it answers. *)
Record World : Type := {
  is_connected : bool;
  chain_id : reply Z;
  block_number : reply Z;
  to_checksum_address : string -> reply string;
  load_json : string -> reply json;
  get_logs : string -> Z -> Z -> reply (list Log)
}.

(** The loop of [fetch_logs] over the chunks.  Next to the result it
    hands back the queries sent to the node, in the order sent. *)
Fixpoint fetch_loop (w : World) (address : string) (chunks : list (Z * Z))
    (all_logs : list Log) (sent : list (Z * Z))
  : list (Z * Z) * reply (list Log) :=
  match chunks with
  | [] => (sent, Ok all_logs)
  | (a, b) :: chunks' =>
      match to_checksum_address w address with
      | Ok addr =>
          match get_logs w addr a b with
          | Ok logs =>
              fetch_loop w address chunks' (all_logs ++ logs) (sent ++ [(a, b)])
          | Fails e => (sent ++ [(a, b)], Fails e)
          end
      | Fails e => (sent, Fails e)
      end
  end.

Definition fetch_logs (fuel : nat) (w : World) (address : string)
    (from_block to_block step : Z)
  : option (list (Z * Z) * reply (list Log)) :=
  chunks ← chunk_ranges fuel from_block to_block step;
  Some (fetch_loop w address chunks [] []).

(** ** Classifier *)

(** [topics[0]] after [Web3.to_hex], when the record has a topic. *)
Definition first_topic (lg : Log) : option string :=
  match map to_hex (topics lg) with
  | [] => None
  | t0 :: _ => Some t0
  end.

(** The body of the loop over [logs]; the state is
    [(counts_by_topic, unknown_topics)]. *)
Definition analyze_step (topic_map : gmap string SignatureEntry)
    (acc : pydict nat * pydict nat) (lg : Log) : pydict nat * pydict nat :=
  let '(counts_by_topic, unknown_topics) := acc in
  match first_topic lg with
  | None => acc
  | Some t0 =>
      let counts_by_topic' := dict_add counts_by_topic t0 1 in
      match topic_map !! t0 with
      | None => (counts_by_topic', dict_add unknown_topics t0 1)
      | Some _ => (counts_by_topic', unknown_topics)
      end
  end.

Definition analyze_topics (topic_map : gmap string SignatureEntry)
    (logs : list Log) : pydict nat * pydict nat :=
  fold_left (analyze_step topic_map) logs ([], []).

(** The horizontal ellipsis U+2026, as its three UTF-8 bytes. *)
Definition ellipsis : string :=
  String (ascii_of_nat 226) (String (ascii_of_nat 128)
    (String (ascii_of_nat 166) EmptyString)).

(** [f"UNKNOWN({topic[:10]}...)"] with the ellipsis character. *)
Definition unknown_name (topic : string) : string :=
  "UNKNOWN(" +:+ substring 0 10 topic +:+ ellipsis +:+ ")".

(** [topic_map.get(topic, {}).get("name", fallback)] *)
Definition resolve_name (topic_map : gmap string SignatureEntry)
    (topic : string) : string :=
  match topic_map !! topic with
  | Some e => name e
  | None => unknown_name topic
  end.

(** The loop over [counts_by_topic.items()]. *)
Definition map_names (topic_map : gmap string SignatureEntry)
    (counts_by_topic : pydict nat) : pydict nat :=
  fold_left
    (fun counts_by_name '(topic, cnt) =>
       dict_add counts_by_name (resolve_name topic_map topic) cnt)
    counts_by_topic [].

Definition is_synthetic (n : string) : bool := String.prefix "UNKNOWN(" n.

(** The set comprehension over [counts_by_name.keys()]. *)
Definition present_names (counts_by_name : pydict nat) : gset string :=
  list_to_set (List.filter (fun n => negb (is_synthetic n)) (keys counts_by_name)).

(** The required-events check; [required_events] is [None] when no list
    was supplied. *)
Definition required_check (required_events : option (list string))
    (counts_by_name : pydict nat) : list string :=
  match required_events with
  | None | Some [] => []
  | Some reqs =>
      let present := present_names counts_by_name in
      List.filter (fun req => bool_decide (req ∉ present)) reqs
  end.

(** What the run reports (the fields of the JSON summary that do not
    depend on the clock). *)
Record Report : Type := {
  rep_chain_id : option Z;
  rep_address : string;
  from_block : Z;
  to_block : Z;
  logs_fetched : nat;
  counts_by_topic : pydict nat;
  counts_by_name : pydict nat;
  unknown_topics : pydict nat;
  required_events : option (list string);
  missing_required : list string
}.

(** [bool(d)] for a dictionary or a list. *)
Definition nonempty {A} (l : list A) : bool :=
  match l with [] => false | _ => true end.

(** The exit-code policy at the end of [main]. *)
Definition exit_code (unknown_topics : pydict nat)
    (missing_required : list string) : Z :=
  let bad := nonempty unknown_topics || nonempty missing_required in
  if bad then 2 else 0.

(** Everything [main] does once the logs are in hand. *)
Definition classify (topic_map : gmap string SignatureEntry)
    (logs : list Log) (required : option (list string))
    (cid : option Z) (addr : string) (fb tb : Z) : Report :=
  let '(cbt, unk) := analyze_topics topic_map logs in
  let cbn := map_names topic_map cbt in
  {| rep_chain_id := cid; rep_address := addr;
     from_block := fb; to_block := tb;
     logs_fetched := length logs;
     counts_by_topic := cbt; counts_by_name := cbn; unknown_topics := unk;
     required_events := required;
     missing_required := required_check required cbn |}.

(** ** The run *)

Record Args : Type := {
  arg_address : string;
  arg_abi : string;
  arg_from_block : option Z;
  arg_to_block : option Z;
  arg_step : Z;
  arg_expected_events : option string;
  arg_json : bool
}.

(** The arguments with [--step] replaced. *)
Definition with_step (s : Z) (args : Args) : Args :=
  {| arg_address := arg_address args; arg_abi := arg_abi args;
     arg_from_block := arg_from_block args; arg_to_block := arg_to_block args;
     arg_step := s; arg_expected_events := arg_expected_events args;
     arg_json := arg_json args |}.

(** The five places where [main] prints a failure and calls [sys.exit(1)]. *)
Inductive fatal : Type :=
  | ConnectionFailed
  | InvalidRange
  | AbiLoadFailed (e : exn)
  | ExpectedLoadFailed (e : exn)
  | FetchFailed (e : exn).

(** How [main] leaves through [sys.exit]: after a failure message and no
    report, or after the report with the code of the exit policy. *)
Inductive finish : Type :=
  | Fatal (why : fatal)
  | Finished (r : Report) (code : Z).

(** The [try] block around the ABI: the file has to hold a JSON array. *)
Definition load_abi (w : World) (path : string) : reply (list json) :=
  match load_json w path with
  | Ok (JArr items) => Ok items
  | Ok _ => Fails (ValueError "ABI must be a JSON array.")
  | Fails e => Fails e
  end.

(** The [try] block around the expected events: no path, no list;
    otherwise the file has to hold an array of strings. *)
Definition load_required (w : World) (path : option string)
  : reply (option (list string)) :=
  match path with
  | None => Ok None
  | Some p =>
      if String.eqb p "" then Ok None
      else
        match load_json w p with
        | Ok (JArr items) =>
            match as_strings items with
            | Some reqs => Ok (Some reqs)
            | None =>
                Fails (ValueError "expected-events must be a JSON array of strings.")
            end
        | Ok _ =>
            Fails (ValueError "expected-events must be a JSON array of strings.")
        | Fails e => Fails e
        end
  end.

(** What [main] holds when it turns to the logs. *)
Record Setup : Type := {
  su_chain_id : option Z;
  su_from_block : Z;
  su_to_block : Z;
  su_address : string;
  su_topic_map : gmap string SignatureEntry;
  su_required : option (list string)
}.

Definition range_start (args : Args) (latest : Z) : Z :=
  match arg_from_block args with
  | Some f => f
  | None => Z.max 0 (latest - 5000)
  end.

Definition range_end (args : Args) (latest : Z) : Z :=
  match arg_to_block args with
  | Some t => t
  | None => latest
  end.

(** [main] from the connection check to the loading of the expected
    events.  [Returns (inl why)] is a failure message followed by
    [sys.exit(1)]; [Raises] is an exception nobody catches. *)
Definition setup (w : World) (args : Args) : outcome (fatal + Setup) :=
  if negb (is_connected w) then Returns (inl ConnectionFailed)
  else
    let cid := match chain_id w with Ok c => Some c | Fails _ => None end in
    match block_number w with
    | Fails e => Raises e
    | Ok latest =>
        let fb := range_start args latest in
        let tb := range_end args latest in
        if fb >? tb then Returns (inl InvalidRange)
        else
          match to_checksum_address w (arg_address args) with
          | Fails e => Raises e
          | Ok addr =>
              match load_abi w (arg_abi args) with
              | Fails e => Returns (inl (AbiLoadFailed e))
              | Ok items =>
                  topic_map ← build_event_signature_map items;
                  match load_required w (arg_expected_events args) with
                  | Fails e => Returns (inl (ExpectedLoadFailed e))
                  | Ok required =>
                      Returns (inr {| su_chain_id := cid;
                                      su_from_block := fb;
                                      su_to_block := tb;
                                      su_address := addr;
                                      su_topic_map := topic_map;
                                      su_required := required |})
                  end
              end
          end
    end.

(** [main] from the fetching of the logs to [sys.exit]. *)
Definition audit (fuel : nat) (w : World) (args : Args) (s : Setup)
  : option finish :=
  match fetch_logs fuel w (arg_address args) (su_from_block s)
          (su_to_block s) (Z.max 1 (arg_step args)) with
  | None => None
  | Some (_, Fails e) => Some (Fatal (FetchFailed e))
  | Some (_, Ok logs) =>
      let r := classify (su_topic_map s) logs (su_required s)
                 (su_chain_id s) (su_address s)
                 (su_from_block s) (su_to_block s) in
      Some (Finished r (exit_code (unknown_topics r) (missing_required r)))
  end.

(** [main].  [None] means the chunker ran out of [fuel]. *)
Definition main (fuel : nat) (w : World) (args : Args)
  : option (outcome finish) :=
  match setup w args with
  | Returns (inl why) => Some (Returns (Fatal why))
  | Returns (inr s) => Returns <$> audit fuel w args s
  | Raises e => Some (Raises e)
  | Unmodelled => Some Unmodelled
  end.

(** The status the shell sees. *)
Definition exit_status (o : outcome finish) : option Z :=
  match o with
  | Returns (Fatal _) => Some 1
  | Returns (Finished _ code) => Some code
  | Raises _ => Some 1
  | Unmodelled => None
  end.

(** The report a run emits, if any. *)
Definition emitted_report (o : outcome finish) : option Report :=
  match o with
  | Returns (Finished r _) => Some r
  | _ => None
  end.

(** ** The report for a person *)

(** The lines [main] prints once the analysis is done, up to the line
    with the elapsed time, which depends on the clock. *)
Inductive line : Type :=
  | CountsHeader
  | CountLine (name : string) (cnt : nat)
  | NoEvents
  | UnknownHeader (n : nat)
  | UnknownSample (sample : list string) (more : bool)
  | NoUnknown
  | MissingLine (missing : list string)
  | AllObserved.

(** The text of a line. *)
Definition text (l : line) : string :=
  match l with
  | CountsHeader => "📊 Event counts (by name):"
  | CountLine name cnt => "   • " +:+ name +:+ ": " +:+ pretty cnt
  | NoEvents => "⚠️ No events observed in the given range."
  | UnknownHeader n => "🚩 Unknown topics (not in ABI): " +:+ pretty n
  | UnknownSample sample more =>
      "   sample: " +:+ String.concat ", " sample
      +:+ (if more then " ..." else "")
  | NoUnknown => "✅ No unknown event topics detected."
  | MissingLine missing =>
      "❌ Missing required events: " +:+ String.concat ", " missing
  | AllObserved => "✅ All required events were observed at least once."
  end.

(** The order of [sorted] on strings: code point by code point, which on
    UTF-8 bytes is byte by byte. *)
Definition name_le (a b : string) : Prop := String.leb a b = true.

#[global] Instance name_le_dec : RelDecision name_le :=
  λ a b, decide (String.leb a b = true).

(** [sorted(names)] *)
Definition sorted (names : list string) : list string :=
  merge_sort name_le names.

(** The three blocks of the report: the counts by name, the unknown
    topics, the required events.  In [counts_by_name[name]] the name is
    a key of the dictionary. *)
Definition human_lines (r : Report) : list line :=
  (if nonempty (counts_by_name r)
   then CountsHeader
        :: ((λ name,
              CountLine name (default 0%nat (dict_get (counts_by_name r) name)))
            <$> sorted (keys (counts_by_name r)))
   else [NoEvents])
  ++ (if nonempty (unknown_topics r)
      then [UnknownHeader (length (unknown_topics r));
            UnknownSample (take 10 (keys (unknown_topics r)))
              (bool_decide (10 < length (unknown_topics r))%nat)]
      else [NoUnknown])
  ++ (if nonempty (missing_required r)
      then [MissingLine (missing_required r)]
      else match required_events r with
           | Some _ => [AllObserved]
           | None => []
           end).

Definition printed (r : Report) : list string := text <$> human_lines r.

(** * Vocabulary of the properties *)

(** ** Range chunker *)

(** [tiles lo hi l]: the sub-ranges of [l], in the order listed, start at
    [lo], each begins one past the end of the one before, none is empty,
    and the last ends at [hi]. *)
Fixpoint tiles (lo hi : Z) (l : list (Z * Z)) : Prop :=
  match l with
  | [] => lo = hi + 1
  | (a, b) :: l' => a = lo ∧ a ≤ b ∧ b ≤ hi ∧ tiles (b + 1) hi l'
  end.

Definition covers (x : Z) (r : Z * Z) : bool := (r.1 <=? x) && (x <=? r.2).

Definition width (r : Z * Z) : Z := r.2 - r.1 + 1.

(** Blocks still to be chunked when the loop is at [cur]. *)
Definition remaining (cur end_ : Z) : nat := Z.to_nat (end_ - cur + 1).

(** ** Classifier *)

(** [d.get(k, 0)] *)
Definition count_of (d : pydict nat) (k : string) : nat :=
  default 0%nat (dict_get d k).

Definition has_topic (lg : Log) : bool := nonempty (topics lg).

(** How many records of [logs] have [t] as their first topic. *)
Definition topic_count (logs : list Log) (t : string) : nat :=
  length (List.filter (λ lg, bool_decide (first_topic lg = Some t)) logs).

(** How many records of [logs] have a first topic that goes under the
    name [n]. *)
Definition name_count (topic_map : gmap string SignatureEntry)
    (logs : list Log) (n : string) : nat :=
  length (List.filter
            (λ lg, match first_topic lg with
                   | Some t => bool_decide (resolve_name topic_map t = n)
                   | None => false
                   end) logs).

(** The counts of [items] that go under the name [n], added up. *)
Definition tally (topic_map : gmap string SignatureEntry)
    (items : pydict nat) (n : string) : nat :=
  sum_list (values
    (List.filter (λ kv, bool_decide (resolve_name topic_map kv.1 = n)) items)).

Definition goes_under (tm : gmap string SignatureEntry) (n : string)
    (kv : string * nat) : bool :=
  bool_decide (resolve_name tm kv.1 = n).

Definition absent (topic_map : gmap string SignatureEntry)
    (kv : string * nat) : bool :=
  bool_decide (topic_map !! kv.1 = None).

(** The names of the signature map that some record of [logs] resolves
    to through its first topic. *)
Definition resolved_names (topic_map : gmap string SignatureEntry)
    (logs : list Log) : list string :=
  omap (λ lg, t ← first_topic lg; name <$> topic_map !! t) logs.

Definition observed (topic_map : gmap string SignatureEntry)
    (logs : list Log) (n : string) : bool :=
  negb (is_synthetic n) && bool_decide (n ∈ resolved_names topic_map logs).

(** ** Signature mapper *)

(** The type string an inputs entry carries, if it carries one. *)
Definition declared_type (i : json) : option string :=
  match i with
  | JObj fields =>
      match dict_get fields "type" with
      | Some (JStr ty) => Some ty
      | _ => None
      end
  | _ => None
  end.

Definition hex_alphabet : list ascii := list_ascii_of_string "0123456789abcdef".

(** The topic of the ERC-20 [Transfer] event. *)
Definition transfer_topic : string :=
  "0xddf252ad1be2c89b69c2b068fc378daa952ba7f163c4a11628f55a4df523b3ef".

(** A definition the mapper passes over: an object that is not of event
    kind, or whose name is missing or empty, or whose inputs field is
    there but is not a list. *)
Definition passed_over (item : json) : Prop :=
  ∃ fields, item = JObj fields
    ∧ (dict_get fields "type" ≠ Some (JStr "event")
       ∨ dict_get fields "name" = None
       ∨ dict_get fields "name" = Some (JStr "")
       ∨ ∃ v, dict_get fields "inputs" = Some v ∧ is_list v = false).

(** Three definitions the mapper passes over. *)
Definition passed_over_abi : list json :=
  [JObj [("type", JStr "function"); ("name", JStr "f")];
   JObj [("type", JStr "event"); ("inputs", JArr [])];
   JObj [("type", JStr "event"); ("name", JStr "E"); ("inputs", JStr "x")]].

(** An event definition that has a name and no inputs field. *)
Definition ping_event : json :=
  JObj [("type", JStr "event"); ("name", JStr "Ping")].

(** An event definition one of whose inputs has no type. *)
Definition typeless_event : json :=
  JObj [("type", JStr "event"); ("name", JStr "Oops");
        ("inputs", JArr [JObj [("name", JStr "x")]])].

(** The collaborators did their part up to the loading of the ABI. *)
Definition abi_loaded (w : World) (args : Args) (items : list json) : Prop :=
  is_connected w = true
  ∧ (∃ latest, block_number w = Ok latest
               ∧ range_start args latest ≤ range_end args latest)
  ∧ (∃ addr, to_checksum_address w (arg_address args) = Ok addr)
  ∧ load_abi w (arg_abi args) = Ok items.

(** ** Log fetcher *)

(** Whether the node answers the query for chunk [c], and with what. *)
Definition answers (w : World) (addr : string) (c : Z * Z) : bool :=
  match get_logs w addr c.1 c.2 with Ok _ => true | Fails _ => false end.

Definition chunk_logs (w : World) (addr : string) (c : Z * Z) : list Log :=
  match get_logs w addr c.1 c.2 with Ok logs => logs | Fails _ => [] end.

(** ** A sample run

    An ABI with the ERC-20 [Transfer] event and one definition that is
    not an event; a node that answers every query with one record whose
    first topic is the two bytes 0xabcd. *)
Definition transfer_inputs : list json :=
  [JObj [("name", JStr "from"); ("type", JStr "address")];
   JObj [("name", JStr "to"); ("type", JStr "address")];
   JObj [("name", JStr "value"); ("type", JStr "uint256")]].

Definition transfer_fields : pydict json :=
  [("type", JStr "event"); ("name", JStr "Transfer");
   ("inputs", JArr transfer_inputs)].

Definition transfer_event : json := JObj transfer_fields.

Definition sample_abi : json :=
  JArr [transfer_event; JObj [("type", JStr "function"); ("name", JStr "f")]].

Definition sample_world : World :=
  {| is_connected := true;
     chain_id := Ok 1;
     block_number := Ok 100;
     to_checksum_address := λ a, Ok a;
     load_json := λ _, Ok sample_abi;
     get_logs := λ _ _ _, Ok [{| topics := [[171; 205]] |}] |}.

Definition sample_args : Args :=
  {| arg_address := "0xA"; arg_abi := "abi.json";
     arg_from_block := Some 10; arg_to_block := Some 25;
     arg_step := 10; arg_expected_events := None; arg_json := false |}.

(** The map the builder returns, empty when it does not return. *)
Definition built (abi : list json) : gmap string SignatureEntry :=
  match build_event_signature_map abi with
  | Returns tm => tm
  | _ => ∅
  end.

(** What [main] holds after its setup on the sample arguments. *)
Definition sample_setup : Setup :=
  {| su_chain_id := Some 1; su_from_block := 10; su_to_block := 25;
     su_address := "0xA"; su_topic_map := built (list_items sample_abi);
     su_required := None |}.

(** A node whose second query fails. *)
Definition failing_world : World :=
  {| is_connected := true;
     chain_id := Ok 1;
     block_number := Ok 100;
     to_checksum_address := λ a, Ok a;
     load_json := λ _, Ok sample_abi;
     get_logs := λ _ a _, if a =? 10 then Ok [{| topics := [[171; 205]] |}]
                          else Fails (Failure "timeout") |}.

(** A node that answers every query with one [Transfer] record, and a
    run that requires that event. *)
Definition transfer_world : World :=
  {| is_connected := true;
     chain_id := Fails (Failure "no chain id");
     block_number := Ok 4;
     to_checksum_address := λ a, Ok a;
     load_json := λ path, if String.eqb path "abi.json" then Ok sample_abi
                          else Ok (JArr [JStr "Transfer"]);
     get_logs := λ _ _ _,
       Ok [{| topics := [keccak "Transfer(address,address,uint256)"; [1]] |};
           {| topics := [] |}] |}.

Definition transfer_args : Args :=
  {| arg_address := "0xA"; arg_abi := "abi.json";
     arg_from_block := None; arg_to_block := None;
     arg_step := 0; arg_expected_events := Some "expected.json";
     arg_json := true |}.

(** ** Range chunker, in closed form *)

(** The [k]-th sub-range of [start, end] in steps of [step]. *)
Definition nth_chunk (start end_ step : Z) (k : nat) : Z * Z :=
  (start + Z.of_nat k * step,
   Z.min (start + (Z.of_nat k + 1) * step - 1) end_).

(** ceil((end - start + 1) / step), and 0 for an empty range. *)
Definition chunk_count (start end_ step : Z) : nat :=
  Z.to_nat ((end_ - start + 1 + step - 1) / step).

(** The list [chunk_ranges] returns once the fuel suffices. *)
Definition chunks_of (start end_ step : Z) : list (Z * Z) :=
  default [] (chunk_ranges (S (remaining start end_)) start end_ step).

(** ** Signature mapper, as a list of entries *)

(** The entry a definition stands for, when it stands for one: an object
    of event kind with a non-empty string name and a list of inputs (none
    when the field is missing) that all carry a type string. *)
Definition event_entry (item : json) : option SignatureEntry :=
  match item with
  | JObj fields =>
      if is_event fields then
        match dict_get fields "name", default (JArr []) (dict_get fields "inputs") with
        | Some (JStr nm), JArr ins =>
            if String.eqb nm "" then None
            else
              tys ← mapM declared_type ins;
              Some {| name := nm; inputs := ins;
                      signature := nm +:+ "(" +:+ String.concat "," tys +:+ ")" |}
        | _, _ => None
        end
      else None
  | _ => None
  end.

Definition entry_topic (e : SignatureEntry) : string :=
  topic_of_signature (signature e).

(** Entering a list of entries one after the other. *)
Definition enter_all (tm : gmap string SignatureEntry)
    (es : list SignatureEntry) : gmap string SignatureEntry :=
  fold_left (λ acc e, <[entry_topic e := e]> acc) es tm.

Definition is_event_item (item : json) : bool :=
  match item with JObj fields => is_event fields | _ => false end.

Definition is_object (item : json) : bool :=
  match item with JObj _ => true | _ => false end.

(** A node that cannot put the address in checksum form. *)
Definition bad_address_world : World :=
  {| is_connected := true;
     chain_id := Ok 1;
     block_number := Ok 100;
     to_checksum_address := λ _, Fails (ValueError "invalid address");
     load_json := λ _, Ok (JArr []);
     get_logs := λ _ _ _, Ok [] |}.

(** An ABI whose two definitions of [Transfer] differ in what they say
    about the inputs besides the types. *)
Definition transfer_again : json :=
  JObj [("type", JStr "event"); ("name", JStr "Transfer");
        ("inputs", JArr [JObj [("type", JStr "address"); ("indexed", JBool true)];
                         JObj [("type", JStr "address"); ("indexed", JBool true)];
                         JObj [("type", JStr "uint256")]])].

(** An event definition whose input has a type that is no string. *)
Definition odd_type_event : json :=
  JObj [("type", JStr "event"); ("name", JStr "Odd");
        ("inputs", JArr [JObj [("type", JNum 5)]])].

(** ** A node that answers by block *)

(** The blocks of the inclusive range [a, b]. *)
Definition blocks (a b : Z) : list Z := seqZ a (b - a + 1).

(** The node answers a query with the records of the blocks asked for,
    block after block. *)
Definition answers_by_block (w : World) (addr : string)
    (block_logs : Z → list Log) : Prop :=
  ∀ a b, get_logs w addr a b = Ok (flat_map block_logs (blocks a b)).

(** One record in every other block. *)
Definition even_block_logs (n : Z) : list Log :=
  if n mod 2 =? 0 then [{| topics := [[171; 205]] |}] else [].

Definition even_world : World :=
  {| is_connected := true;
     chain_id := Ok 1;
     block_number := Ok 100;
     to_checksum_address := λ a, Ok a;
     load_json := λ _, Ok sample_abi;
     get_logs := λ _ a b, Ok (flat_map even_block_logs (blocks a b)) |}.

(** ** Order and shape of the counters *)

(** The elements of [l], each once, in the order of first occurrence. *)
Fixpoint distinct (l : list string) : list string :=
  match l with
  | [] => []
  | x :: l' => x :: List.filter (λ y, negb (String.eqb x y)) (distinct l')
  end.

(** The first topics of the records that have one, record by record. *)
Definition first_topics (logs : list Log) : list string :=
  omap first_topic logs.

Definition unknown_to (topic_map : gmap string SignatureEntry)
    (t : string) : bool :=
  bool_decide (topic_map !! t = None).

(** ** Variations of a run *)

(** The collaborators with another answer to the chain-id question. *)
Definition with_chain_id (c : reply Z) (w : World) : World :=
  {| is_connected := is_connected w; chain_id := c;
     block_number := block_number w;
     to_checksum_address := to_checksum_address w;
     load_json := load_json w; get_logs := get_logs w |}.


(** The report without its chain id. *)
Definition forget_chain_id (r : Report) : Report :=
  {| rep_chain_id := None; rep_address := rep_address r;
     from_block := from_block r; to_block := to_block r;
     logs_fetched := logs_fetched r;
     counts_by_topic := counts_by_topic r;
     counts_by_name := counts_by_name r;
     unknown_topics := unknown_topics r;
     required_events := required_events r;
     missing_required := missing_required r |}.

Definition forget_chain_id_in (o : outcome finish) : outcome finish :=
  match o with
  | Returns (Finished r code) => Returns (Finished (forget_chain_id r) code)
  | _ => o
  end.

(** A run that asks for blocks from 200 on when the latest is 100. *)
Definition late_args : Args :=
  {| arg_address := "0xA"; arg_abi := "abi.json";
     arg_from_block := Some 200; arg_to_block := None;
     arg_step := 10; arg_expected_events := None; arg_json := false |}.

(** ** The printed report *)

(** The names and counts of the count lines, in the order printed. *)
Definition count_lines (ls : list line) : list (string * nat) :=
  omap (λ l, match l with CountLine n c => Some (n, c) | _ => None end) ls.

(** The first topics of the records that the signature map does not
    have, each once, in the order in which they first occur. *)
Definition unknown_first_topics (topic_map : gmap string SignatureEntry)
    (logs : list Log) : list string :=
  List.filter (unknown_to topic_map) (distinct (first_topics logs)).

(** The required names that no record was observed under. *)
Definition unobserved (topic_map : gmap string SignatureEntry)
    (logs : list Log) (reqs : list string) : list string :=
  List.filter (λ req, negb (observed topic_map logs req)) reqs.

(** * Proofs *)

(** ** Range chunker *)

Lemma rng_end_progress cur end_ step :
  1 ≤ step → cur ≤ end_ → cur < rng_end cur end_ step + 1 ≤ end_ + 1.
Proof. unfold rng_end. lia. Qed.

Lemma chunk_loop_terminates fuel cur end_ step ranges :
  1 ≤ step → (remaining cur end_ < fuel)%nat →
  is_Some (chunk_loop fuel cur end_ step ranges).
Proof.
  intros Hstep. revert cur ranges.
  induction fuel as [|fuel IH]; intros cur ranges Hfuel; [lia|].
  simpl. destruct (Z.leb_spec cur end_) as [Hle|Hgt]; [|by eexists].
  apply IH. pose proof (rng_end_progress cur end_ step Hstep Hle).
  unfold remaining in *. lia.
Qed.

(** More fuel never changes a result. *)
Lemma chunk_loop_fuel_mono fuel fuel' cur end_ step ranges l :
  (fuel ≤ fuel')%nat →
  chunk_loop fuel cur end_ step ranges = Some l →
  chunk_loop fuel' cur end_ step ranges = Some l.
Proof.
  revert fuel' cur ranges.
  induction fuel as [|fuel IH]; intros fuel' cur ranges Hle H; [done|].
  destruct fuel' as [|fuel']; [lia|].
  simpl in *. destruct (cur <=? end_); [|done].
  apply IH; [lia|done].
Qed.

(** The accumulator is only ever appended to. *)
Lemma chunk_loop_acc fuel cur end_ step ranges :
  chunk_loop fuel cur end_ step ranges
  = (ranges ++.) <$> chunk_loop fuel cur end_ step [].
Proof.
  revert cur ranges.
  induction fuel as [|fuel IH]; intros cur ranges; [done|].
  simpl. destruct (cur <=? end_).
  - rewrite (IH _ (ranges ++ _)), (IH _ [_]).
    destruct (chunk_loop fuel _ _ _ []); simpl; [|done].
    by rewrite <- app_assoc.
  - simpl. by rewrite app_nil_r.
Qed.

Lemma chunk_loop_unfold fuel cur end_ step :
  cur ≤ end_ →
  chunk_loop (S fuel) cur end_ step []
  = ((cur, rng_end cur end_ step) ::.)
      <$> chunk_loop fuel (rng_end cur end_ step + 1) end_ step [].
Proof.
  intros Hle. simpl. destruct (Z.leb_spec cur end_); [|lia].
  by rewrite chunk_loop_acc.
Qed.

Lemma ceil_div_step n step :
  1 ≤ step → step < n → (n + step - 1) / step = 1 + (n - step + step - 1) / step.
Proof.
  intros. replace (n + step - 1) with ((n - step + step - 1) + 1 * step) by lia.
  rewrite Z.div_add by lia. lia.
Qed.

Lemma ceil_div_one n step :
  1 ≤ n ≤ step → (n + step - 1) / step = 1.
Proof.
  intros. symmetry. apply (Z.div_unique_pos _ _ 1 (n - 1)); lia.
Qed.

Lemma chunk_loop_shape fuel cur end_ step l :
  1 ≤ step → cur ≤ end_ + 1 →
  chunk_loop fuel cur end_ step [] = Some l →
  tiles cur end_ l
  ∧ Forall (λ r, width r ≤ step) l
  ∧ Z.of_nat (length l) = (end_ - cur + 1 + step - 1) / step.
Proof.
  intros Hstep. revert cur l.
  induction fuel as [|fuel IH]; intros cur l Hcur H; [done|].
  destruct (Z.le_gt_cases cur end_) as [Hle|Hgt].
  - rewrite chunk_loop_unfold in H by done.
    destruct (chunk_loop fuel _ _ _ []) as [l'|] eqn:E; [|done].
    simpl in H. injection H as <-.
    pose proof (rng_end_progress cur end_ step Hstep Hle) as Hp.
    destruct (IH (rng_end cur end_ step + 1) l' ltac:(lia) E) as (Ht & Hw & Hn).
    split_and!.
    + simpl. split_and!; [done|lia|lia|done].
    + constructor; [|done]. unfold width, rng_end. simpl. lia.
    + rewrite length_cons, Nat2Z.inj_succ, Hn. unfold rng_end in *.
      destruct (Z.lt_ge_cases (cur + step - 1) end_).
      * rewrite Z.min_l by lia.
        rewrite (ceil_div_step (end_ - cur + 1) step) by lia.
        replace (end_ - (cur + step - 1 + 1) + 1) with (end_ - cur + 1 - step)
          by lia. lia.
      * rewrite Z.min_r by lia.
        rewrite (ceil_div_one (end_ - cur + 1) step) by lia.
        replace (end_ - (end_ + 1) + 1 + step - 1) with (step - 1) by lia.
        rewrite Z.div_small by lia. lia.
  - simpl in H. destruct (Z.leb_spec cur end_); [lia|].
    injection H as <-. split_and!; [simpl; lia|constructor|].
    simpl. replace (end_ - cur + 1 + step - 1) with (step - 1) by lia.
    rewrite Z.div_small by lia. done.
Qed.

Lemma tiles_lower lo hi l : tiles lo hi l → Forall (λ r, lo ≤ r.1) l.
Proof.
  revert lo. induction l as [|[a b] l IH]; intros lo Ht; simpl in *.
  - constructor.
  - destruct Ht as (-> & Hab & Hb & Ht). constructor; [simpl; lia|].
    eapply Forall_impl; [by apply IH|]. simpl. intros; lia.
Qed.

(** A tiling covers the whole range and nothing else, each block once. *)
Lemma tiles_covers lo hi l x :
  tiles lo hi l →
  length (List.filter (covers x) l)
  = if bool_decide (lo ≤ x ≤ hi) then 1%nat else 0%nat.
Proof.
  revert lo. induction l as [|[a b] l IH]; intros lo Ht.
  - simpl in *. case_bool_decide; [lia|done].
  - destruct Ht as (-> & Hab & Hb & Ht). specialize (IH _ Ht).
    pose proof (tiles_lower _ _ _ Ht) as Hlow.
    cbn [List.filter]. unfold covers at 1. cbn [fst snd].
    destruct (Z.leb_spec lo x), (Z.leb_spec x b); cbn [andb length];
      rewrite IH; repeat case_bool_decide; lia.
Qed.

(** Sub-ranges of a tiling come in ascending order, without overlap. *)
Lemma tiles_ascending lo hi l :
  tiles lo hi l → StronglySorted (λ r r', r.2 < r'.1) l.
Proof.
  revert lo. induction l as [|[a b] l IH]; intros lo Ht; simpl in *.
  - constructor.
  - destruct Ht as (-> & Hab & Hb & Ht). constructor; [by eapply IH|].
    eapply Forall_impl; [by eapply tiles_lower|]. simpl. intros; lia.
Qed.

Lemma chunk_ranges_total start end_ step :
  1 ≤ step →
  ∃ l, ∀ fuel, (remaining start end_ < fuel)%nat →
       chunk_ranges fuel start end_ step = Some l.
Proof.
  intros Hstep.
  destruct (chunk_loop_terminates (S (remaining start end_)) start end_ step []
              Hstep ltac:(lia)) as [l Hl].
  exists l. intros fuel Hfuel.
  eapply chunk_loop_fuel_mono; [|exact Hl]. lia.
Qed.

Lemma chunk_loop_diverges fuel cur end_ step ranges :
  step ≤ 0 → cur ≤ end_ → chunk_loop fuel cur end_ step ranges = None.
Proof.
  intros Hstep. revert cur ranges.
  induction fuel as [|fuel IH]; intros cur ranges Hle; [done|].
  simpl. destruct (Z.leb_spec cur end_); [|lia].
  apply IH. unfold rng_end. lia.
Qed.

(** With a step below one the loop never leaves a non-empty range. *)
Lemma chunk_ranges_diverges fuel start end_ step :
  step ≤ 0 → start ≤ end_ → chunk_ranges fuel start end_ step = None.
Proof.
  intros Hstep. unfold chunk_ranges. generalize (@nil (Z * Z)).
  revert start. induction fuel as [|fuel IH]; intros cur acc Hle; [done|].
  simpl. destruct (Z.leb_spec cur end_); [|lia].
  apply IH. unfold rng_end. lia.
Qed.

Lemma ceil_div_bounds n step :
  1 ≤ step →
  ((n + step - 1) / step - 1) * step < n ≤ (n + step - 1) / step * step.
Proof.
  intros Hstep.
  pose proof (Z.div_mod (n + step - 1) step ltac:(lia)).
  pose proof (Z.mod_pos_bound (n + step - 1) step ltac:(lia)).
  nia.
Qed.

(** C4: for start <= end and step >= 1, [chunk_ranges] returns (given
    enough fuel, and the same list whatever the fuel) sub-ranges that tile
    [start, end]: contiguous, ascending, without gap or overlap, so that
    every block of the range lies in exactly one sub-range and no other
    block lies in any; each sub-range holds between 1 and [step] blocks;
    their number is ceil((end - start + 1) / step).  And
    chunk_ranges(10, 25, 10) is [(10, 19), (20, 25)]. *)
Theorem chunk_ranges_partition (start end_ step : Z)
    (Hrange : start ≤ end_) (Hstep : 1 ≤ step) :
  ∃ l,
    (∀ fuel, (remaining start end_ < fuel)%nat →
             chunk_ranges fuel start end_ step = Some l)
    ∧ (∀ fuel l', chunk_ranges fuel start end_ step = Some l' → l' = l)
    ∧ tiles start end_ l
    ∧ StronglySorted (λ r r', r.2 < r'.1) l
    ∧ (∀ x, length (List.filter (covers x) l)
            = if bool_decide (start ≤ x ≤ end_) then 1%nat else 0%nat)
    ∧ Forall (λ r, 1 ≤ width r ≤ step) l
    ∧ Z.of_nat (length l) = (end_ - start + 1 + step - 1) / step
    ∧ (Z.of_nat (length l) - 1) * step < end_ - start + 1
        ≤ Z.of_nat (length l) * step
    ∧ chunk_ranges 3 10 25 10 = Some [(10, 19); (20, 25)].
Proof.
  destruct (chunk_ranges_total start end_ step Hstep) as [l Hl].
  exists l.
  pose proof (Hl _ (Nat.lt_succ_diag_r _)) as Hrun.
  destruct (chunk_loop_shape _ start end_ step l Hstep ltac:(lia) Hrun)
    as (Ht & Hw & Hn).
  split; [exact Hl|]. split.
  { intros fuel l' Hl'.
    pose proof (chunk_loop_fuel_mono fuel (fuel `max` S (remaining start end_))
                  _ _ _ _ _ ltac:(lia) Hl') as H1.
    pose proof (chunk_loop_fuel_mono (S (remaining start end_))
                  (fuel `max` S (remaining start end_))
                  _ _ _ _ _ ltac:(lia) Hrun) as H2.
    unfold chunk_ranges in *. congruence. }
  split; [exact Ht|]. split; [by eapply tiles_ascending|].
  split; [intros x; by apply tiles_covers|]. split.
  { clear Hl Hrun Hn. revert Ht Hw. generalize start.
    induction l as [|[a b] l IH]; intros lo Ht Hw; constructor.
    - simpl in Ht. inversion Hw; subst. unfold width in *. simpl in *. lia.
    - simpl in Ht. inversion Hw; subst. eapply IH; [apply Ht|done]. }
  split; [exact Hn|]. split; [|reflexivity].
  rewrite Hn. by apply ceil_div_bounds.
Qed.

Lemma chunk_ranges_partition_witness :
  ∃ l, chunk_ranges 17 10 25 10 = Some l ∧ tiles 10 25 l
       ∧ Z.of_nat (length l) = 2.
Proof.
  destruct (chunk_ranges_partition 10 25 10 ltac:(lia) ltac:(lia))
    as (l & Hrun & _ & Ht & _ & _ & _ & Hn & _).
  exists l. split_and!; [apply Hrun; vm_compute; lia | exact Ht | exact Hn].
Defined.

(** ** Dictionaries *)

Section DictFacts.
Context {V : Type}.
Implicit Types (d : pydict V) (k : string) (v : V).

Lemma dict_get_set d k v k' :
  dict_get (dict_set d k v) k' = if decide (k = k') then Some v else dict_get d k'.
Proof.
  induction d as [|[k0 v0] d IH]; simpl.
  - destruct (String.eqb_spec k k'); case_decide; congruence.
  - destruct (String.eqb_spec k0 k) as [->|Hne]; simpl.
    + destruct (String.eqb_spec k k'); case_decide; congruence.
    + rewrite IH. destruct (String.eqb_spec k0 k'); case_decide; congruence.
Qed.

Lemma dict_get_None d k : dict_get d k = None ↔ k ∉ keys d.
Proof.
  unfold keys. induction d as [|[k0 v0] d IH]; simpl.
  - split; [intros _; apply not_elem_of_nil|done].
  - rewrite not_elem_of_cons.
    destruct (String.eqb_spec k0 k); [split; [done|intros []; congruence]|].
    rewrite IH. split; [by intros ?; split|by intros [_ ?]].
Qed.

Lemma dict_get_Some_elem d k v : dict_get d k = Some v → (k, v) ∈ d.
Proof.
  induction d as [|[k0 v0] d IH]; simpl; [done|].
  destruct (String.eqb_spec k0 k) as [->|]; intros H.
  - injection H as ->. apply list_elem_of_here.
  - apply list_elem_of_further. auto.
Qed.

Lemma keys_dict_set d k v :
  keys (dict_set d k v) = if decide (k ∈ keys d) then keys d else keys d ++ [k].
Proof.
  unfold keys. induction d as [|[k0 v0] d IH]; [done|].
  cbn [dict_set]. destruct (String.eqb_spec k0 k) as [->|Hne]; cbn [map fst].
  - rewrite decide_True; [done|apply list_elem_of_here].
  - rewrite IH. destruct (decide (k ∈ map fst d)) as [Hin|Hin].
    + rewrite decide_True; [done|by apply list_elem_of_further].
    + rewrite decide_False; [done|].
      rewrite elem_of_cons. intros [?|?]; congruence.
Qed.

Lemma dict_set_NoDup d k v : NoDup (keys d) → NoDup (keys (dict_set d k v)).
Proof.
  intros Hd. rewrite keys_dict_set. case_decide; [done|].
  apply NoDup_app. split_and!; [done| |apply NoDup_singleton].
  intros x Hx Hx'. apply list_elem_of_singleton in Hx'. by subst.
Qed.

Lemma dict_set_filter (P : string → bool) d k v :
  List.filter (λ kv, P kv.1) (dict_set d k v)
  = if P k then dict_set (List.filter (λ kv, P kv.1) d) k v
    else List.filter (λ kv, P kv.1) d.
Proof.
  induction d as [|[k0 v0] d IH]; simpl.
  - by destruct (P k).
  - destruct (String.eqb_spec k0 k) as [->|Hne]; simpl.
    + destruct (P k); simpl; [|done]. by rewrite String.eqb_refl.
    + rewrite IH. destruct (P k0), (P k); simpl; try done.
      destruct (String.eqb_spec k0 k); [done|]. done.
Qed.

Lemma dict_get_filter (P : string → bool) d k :
  dict_get (List.filter (λ kv, P kv.1) d) k
  = if P k then dict_get d k else None.
Proof.
  induction d as [|[k0 v0] d IH]; simpl; [by destruct (P k)|].
  destruct (P k0) eqn:E0; simpl; rewrite IH;
    destruct (String.eqb_spec k0 k) as [->|]; try done;
    by rewrite E0.
Qed.

End DictFacts.

Lemma count_of_add d k n k' :
  count_of (dict_add d k n) k'
  = (count_of d k' + if decide (k = k') then n else 0)%nat.
Proof.
  unfold count_of, dict_add. rewrite dict_get_set.
  case_decide; subst; simpl; lia.
Qed.

Lemma sum_values_add d k n :
  sum_list (values (dict_add d k n)) = (sum_list (values d) + n)%nat.
Proof.
  unfold dict_add, values. induction d as [|[k0 v0] d IH]; simpl; [lia|].
  destruct (String.eqb_spec k0 k) as [->|Hne]; simpl; [lia|].
  rewrite IH. lia.
Qed.

(** ** Classifier *)

Lemma analyze_topics_snoc tm logs lg :
  analyze_topics tm (logs ++ [lg])
  = analyze_step tm (analyze_topics tm logs) lg.
Proof. unfold analyze_topics. by rewrite fold_left_app. Qed.

Lemma topic_count_snoc logs lg t :
  topic_count (logs ++ [lg]) t
  = (topic_count logs t + if decide (first_topic lg = Some t) then 1 else 0)%nat.
Proof.
  unfold topic_count. rewrite List.filter_app, length_app. simpl.
  case_bool_decide; case_decide; done.
Qed.

Lemma name_count_snoc tm logs lg n :
  name_count tm (logs ++ [lg]) n
  = (name_count tm logs n
     + match first_topic lg with
       | Some t => if decide (resolve_name tm t = n) then 1 else 0
       | None => 0
       end)%nat.
Proof.
  unfold name_count. rewrite List.filter_app, length_app. simpl.
  destruct (first_topic lg); [|done].
  case_bool_decide; case_decide; done.
Qed.

Lemma first_topic_has_topic lg :
  has_topic lg = bool_decide (is_Some (first_topic lg)).
Proof.
  unfold has_topic, first_topic. by destruct (topics lg).
Qed.

(** The two counters, record by record. *)
Lemma analyze_step_fst tm acc lg :
  (analyze_step tm acc lg).1
  = match first_topic lg with
    | Some t0 => dict_add acc.1 t0 1
    | None => acc.1
    end.
Proof.
  destruct acc as [cbt unk]. unfold analyze_step.
  destruct (first_topic lg); [|done]. by destruct (tm !! _).
Qed.

Lemma analyze_step_snd tm acc lg :
  (analyze_step tm acc lg).2
  = match first_topic lg with
    | Some t0 => match tm !! t0 with
                 | None => dict_add acc.2 t0 1
                 | Some _ => acc.2
                 end
    | None => acc.2
    end.
Proof.
  destruct acc as [cbt unk]. unfold analyze_step.
  destruct (first_topic lg); [|done]. by destruct (tm !! _).
Qed.

Lemma analyze_counts tm logs t :
  count_of (analyze_topics tm logs).1 t = topic_count logs t.
Proof.
  induction logs as [|lg logs IH] using rev_ind; [done|].
  rewrite analyze_topics_snoc, analyze_step_fst, topic_count_snoc, <- IH.
  destruct (first_topic lg) as [t0|]; [|case_decide; [done|lia]].
  rewrite count_of_add. repeat case_decide; congruence.
Qed.

Lemma analyze_keys tm logs t :
  t ∈ keys (analyze_topics tm logs).1
  ↔ ∃ lg, lg ∈ logs ∧ first_topic lg = Some t.
Proof.
  induction logs as [|lg logs IH] using rev_ind.
  - split; [by intros ?%elem_of_nil|by intros (? & ?%elem_of_nil & _)].
  - rewrite analyze_topics_snoc, analyze_step_fst.
    assert (Hsnoc : (∃ lg0, lg0 ∈ logs ++ [lg] ∧ first_topic lg0 = Some t)
              ↔ (∃ lg0, lg0 ∈ logs ∧ first_topic lg0 = Some t)
                ∨ first_topic lg = Some t).
    { split.
      - intros (lg0 & [?|Hx%list_elem_of_singleton]%elem_of_app & ?);
          [|subst lg0]; eauto.
      - intros [(lg0 & ? & ?)|?].
        + exists lg0. split; [apply elem_of_app; by left|done].
        + exists lg. split; [apply elem_of_app; right; apply list_elem_of_here|done]. }
    rewrite Hsnoc, <- IH. clear Hsnoc IH.
    destruct (first_topic lg) as [t0|]; [|split; [by left|by intros [?|?]]].
    unfold dict_add. rewrite keys_dict_set. case_decide as Hin.
    + split; [by left|]. intros [?|[= ->]]; done.
    + rewrite elem_of_app, list_elem_of_singleton.
      split; intros [?|?]; auto; [right|right]; congruence.
Qed.

Lemma analyze_NoDup tm logs : NoDup (keys (analyze_topics tm logs).1).
Proof.
  induction logs as [|lg logs IH] using rev_ind; [apply NoDup_nil_2|].
  rewrite analyze_topics_snoc, analyze_step_fst.
  destruct (first_topic lg); [|done]. by apply dict_set_NoDup.
Qed.

Lemma absent_dict_set tm (d : pydict nat) k v :
  List.filter (absent tm) (dict_set d k v)
  = if bool_decide (tm !! k = None)
    then dict_set (List.filter (absent tm) d) k v
    else List.filter (absent tm) d.
Proof. exact (dict_set_filter (λ k, bool_decide (tm !! k = None)) d k v). Qed.

Lemma absent_dict_get tm (d : pydict nat) k :
  dict_get (List.filter (absent tm) d) k
  = if bool_decide (tm !! k = None) then dict_get d k else None.
Proof. exact (dict_get_filter (λ k, bool_decide (tm !! k = None)) d k). Qed.

Lemma analyze_unknown tm logs :
  (analyze_topics tm logs).2 = List.filter (absent tm) (analyze_topics tm logs).1.
Proof.
  induction logs as [|lg logs IH] using rev_ind; [done|].
  rewrite analyze_topics_snoc, analyze_step_fst, analyze_step_snd, IH.
  destruct (first_topic lg) as [t0|]; [|done].
  unfold dict_add. rewrite absent_dict_set, absent_dict_get.
  destruct (tm !! t0) eqn:E.
  - by rewrite bool_decide_eq_false_2.
  - by rewrite bool_decide_eq_true_2.
Qed.

Lemma analyze_sum tm logs :
  sum_list (values (analyze_topics tm logs).1)
  = length (List.filter has_topic logs).
Proof.
  induction logs as [|lg logs IH] using rev_ind; [done|].
  rewrite analyze_topics_snoc, analyze_step_fst, List.filter_app, length_app.
  simpl. rewrite first_topic_has_topic.
  destruct (first_topic lg) as [t0|].
  - rewrite sum_values_add, IH, bool_decide_eq_true_2 by by eexists. done.
  - rewrite IH, bool_decide_eq_false_2 by by intros [? ?]. simpl. lia.
Qed.

Lemma tally_add tm d k c n :
  tally tm (dict_add d k c) n
  = (tally tm d n + if decide (resolve_name tm k = n) then c else 0)%nat.
Proof.
  unfold tally, dict_add.
  change (λ kv : string * nat, bool_decide (resolve_name tm kv.1 = n))
    with (goes_under tm n).
  pose proof (dict_set_filter (λ k, bool_decide (resolve_name tm k = n)) d k
                (default 0%nat (dict_get d k) + c)%nat) as Hset.
  pose proof (dict_get_filter (λ k, bool_decide (resolve_name tm k = n)) d k)
    as Hget.
  change (λ kv : string * nat,
            (λ k, bool_decide (resolve_name tm k = n)) kv.1)
    with (goes_under tm n) in Hset, Hget.
  simpl in Hset, Hget. rewrite Hset. clear Hset.
  destruct (decide (resolve_name tm k = n)) as [Heq|Hne].
  - rewrite bool_decide_eq_true_2 in Hget |- * by done.
    rewrite <- Hget.
    exact (sum_values_add (List.filter (goes_under tm n) d) k c).
  - rewrite bool_decide_eq_false_2 by done. lia.
Qed.

Lemma map_names_fold tm items acc n :
  count_of
    (fold_left (λ cbn '(topic, cnt), dict_add cbn (resolve_name tm topic) cnt)
       items acc) n
  = (count_of acc n + tally tm items n)%nat.
Proof.
  revert acc. induction items as [|[t c] items IH]; intros acc; simpl.
  - unfold tally. simpl. lia.
  - rewrite IH, count_of_add. unfold tally. simpl.
    case_bool_decide; case_decide; try done; simpl; lia.
Qed.

Lemma map_names_count tm items n :
  count_of (map_names tm items) n = tally tm items n.
Proof. unfold map_names. by rewrite map_names_fold. Qed.

Lemma map_names_sum tm items :
  sum_list (values (map_names tm items)) = sum_list (values items).
Proof.
  unfold map_names.
  enough (H : ∀ acc,
    sum_list (values (fold_left
      (λ cbn '(topic, cnt), dict_add cbn (resolve_name tm topic) cnt)
      items acc))
    = (sum_list (values acc) + sum_list (values items))%nat) by apply H.
  induction items as [|[t c] items IH]; intros acc; simpl; [lia|].
  rewrite IH, sum_values_add. lia.
Qed.

Lemma map_names_keys tm items n :
  n ∈ keys (map_names tm items)
  ↔ ∃ t, t ∈ keys items ∧ resolve_name tm t = n.
Proof.
  unfold map_names.
  enough (H : ∀ acc,
    n ∈ keys (fold_left
      (λ cbn '(topic, cnt), dict_add cbn (resolve_name tm topic) cnt)
      items acc)
    ↔ n ∈ keys acc ∨ ∃ t, t ∈ keys items ∧ resolve_name tm t = n).
  { rewrite H. split; [intros [?%elem_of_nil|?]; done|by right]. }
  induction items as [|[t c] items IH]; intros acc; simpl.
  - split; [by left|]. intros [?|(? & ?%elem_of_nil & _)]; done.
  - rewrite IH. unfold dict_add. rewrite keys_dict_set.
    unfold keys at 3. simpl.
    assert (Hacc : n ∈ (if decide (resolve_name tm t ∈ keys acc)
                        then keys acc else keys acc ++ [resolve_name tm t])
                   ↔ n ∈ keys acc ∨ resolve_name tm t = n).
    { case_decide.
      - split; [by left|]. intros [?|<-]; done.
      - rewrite elem_of_app, list_elem_of_singleton. split; intros [?|?]; auto. }
    rewrite Hacc. clear Hacc. split.
    + intros [[?|?]|(t' & ? & ?)]; [by left| |].
      * right. exists t. split; [apply list_elem_of_here|done].
      * right. exists t'. split; [by apply list_elem_of_further|done].
    + intros [?|(t' & [->|?]%elem_of_cons & ?)]; [by left; left| |].
      * left; by right.
      * right. by exists t'.
Qed.

Lemma map_names_analyze tm logs n :
  count_of (map_names tm (analyze_topics tm logs).1) n = name_count tm logs n.
Proof.
  rewrite map_names_count.
  induction logs as [|lg logs IH] using rev_ind; [done|].
  rewrite analyze_topics_snoc, analyze_step_fst, name_count_snoc, <- IH.
  destruct (first_topic lg) as [t0|]; [|lia].
  by rewrite tally_add.
Qed.

Lemma unknown_name_synthetic t : is_synthetic (unknown_name t) = true.
Proof.
  unfold is_synthetic, unknown_name. simpl.
  by destruct (substring 0 10 t +:+ ellipsis +:+ ")").
Qed.

Lemma first_topic_cons lg t rest :
  topics lg = t :: rest → first_topic lg = Some (to_hex t).
Proof. unfold first_topic. by intros ->. Qed.

Lemma first_topic_nil lg : topics lg = [] → first_topic lg = None.
Proof. unfold first_topic. by intros ->. Qed.

(** C1: what one more record does to the counters, and what the counters
    hold in the end.  A record whose topic list starts with a topic has
    that topic's counter in counts_by_topic incremented; when the topic
    is not a key of the signature map its counter in unknown_topics is
    incremented too, and counts_by_name grows by one under the name
    "UNKNOWN(" + first 10 characters + ellipsis + ")" and under no other
    name; a record without topics changes nothing.  In the end each
    counter holds the number of records it stands for. *)
Theorem classifier_counts (tm : gmap string SignatureEntry)
    (logs : list Log) (lg : Log) :
  let before := analyze_topics tm logs in
  let after := analyze_topics tm (logs ++ [lg]) in
  (∀ t rest, topics lg = t :: rest →
     let t0 := to_hex t in
     after.1 = dict_add before.1 t0 1
     ∧ count_of after.1 t0 = S (count_of before.1 t0)
     ∧ (∀ t', t' ≠ t0 → dict_get after.1 t' = dict_get before.1 t')
     ∧ (tm !! t0 = None →
          after.2 = dict_add before.2 t0 1
          ∧ count_of after.2 t0 = S (count_of before.2 t0)
          ∧ ∀ n, count_of (map_names tm after.1) n
                 = (count_of (map_names tm before.1) n
                    + if decide ("UNKNOWN(" +:+ substring 0 10 t0 +:+ ellipsis
                                   +:+ ")" = n)
                      then 1 else 0)%nat)
     ∧ (is_Some (tm !! t0) → after.2 = before.2))
  ∧ (topics lg = [] → after = before)
  ∧ (∀ t, count_of after.1 t = topic_count (logs ++ [lg]) t)
  ∧ (∀ t, count_of after.2 t
          = if decide (tm !! t = None) then topic_count (logs ++ [lg]) t
            else 0%nat)
  ∧ (∀ n, count_of (map_names tm after.1) n = name_count tm (logs ++ [lg]) n).
Proof.
  intros before after.
  assert (Hstep : after = analyze_step tm before lg)
    by apply analyze_topics_snoc.
  split; [|split; [|split; [|split]]].
  - intros t rest Ht t0. apply first_topic_cons in Ht. fold t0 in Ht.
    assert (H1 : after.1 = dict_add before.1 t0 1)
      by by rewrite Hstep, analyze_step_fst, Ht.
    assert (H2 : after.2 = match tm !! t0 with
                           | None => dict_add before.2 t0 1
                           | Some _ => before.2
                           end)
      by by rewrite Hstep, analyze_step_snd, Ht.
    split; [done|]. split.
    { rewrite H1, count_of_add, decide_True by done. lia. }
    split.
    { intros t' Hne. rewrite H1. unfold dict_add.
      rewrite dict_get_set, decide_False by done. done. }
    split.
    + intros Hnone. rewrite Hnone in H2. split; [done|]. split.
      { rewrite H2, count_of_add, decide_True by done. lia. }
      intros n. rewrite H1, !map_names_count, tally_add.
      unfold resolve_name. rewrite Hnone. done.
    + intros [e He]. by rewrite He in H2.
  - intros Ht. apply first_topic_nil in Ht.
    rewrite Hstep. unfold analyze_step. destruct before. by rewrite Ht.
  - intros t. apply analyze_counts.
  - intros t. unfold after. rewrite analyze_unknown.
    unfold count_of. rewrite absent_dict_get.
    case_decide as Hd.
    + rewrite bool_decide_eq_true_2 by done. apply analyze_counts.
    + by rewrite bool_decide_eq_false_2.
  - intros n. apply map_names_analyze.
Qed.

Lemma classifier_counts_witness :
  count_of (analyze_topics ∅ [{| topics := [[171; 205]] |}]).2 "0xabcd" = 1%nat.
Proof.
  destruct (classifier_counts ∅ [] {| topics := [[171; 205]] |}) as (H & _).
  destruct (H [171; 205] [] eq_refl) as (_ & _ & _ & Hunk & _).
  destruct (Hunk (lookup_empty _)) as (_ & H2 & _).
  exact H2.
Defined.

(** The fields of the report, in terms of the two loops. *)
Lemma classify_fields tm logs required cid addr fb tb :
  let r := classify tm logs required cid addr fb tb in
  counts_by_topic r = (analyze_topics tm logs).1
  ∧ unknown_topics r = (analyze_topics tm logs).2
  ∧ counts_by_name r = map_names tm (analyze_topics tm logs).1
  ∧ missing_required r
    = required_check required (map_names tm (analyze_topics tm logs).1)
  ∧ required_events r = required
  ∧ logs_fetched r = length logs.
Proof. unfold classify. by destruct (analyze_topics tm logs). Qed.

(** C10: the classifier conserves counts.  The values of counts_by_name
    and those of counts_by_topic add up to the same number, the number of
    records with at least one topic; unknown_topics is counts_by_topic
    restricted to the topics that are no key of the signature map, same
    counts, same order. *)
Theorem classifier_conserves (tm : gmap string SignatureEntry)
    (logs : list Log) (required : option (list string))
    (cid : option Z) (addr : string) (fb tb : Z) :
  let r := classify tm logs required cid addr fb tb in
  sum_list (values (counts_by_name r)) = sum_list (values (counts_by_topic r))
  ∧ sum_list (values (counts_by_topic r)) = length (List.filter has_topic logs)
  ∧ unknown_topics r = List.filter (absent tm) (counts_by_topic r)
  ∧ (∀ t, dict_get (unknown_topics r) t
          = if decide (tm !! t = None) then dict_get (counts_by_topic r) t
            else None)
  ∧ NoDup (keys (counts_by_topic r)).
Proof.
  intros r.
  destruct (classify_fields tm logs required cid addr fb tb)
    as (Hcbt & Hunk & Hcbn & _).
  fold r in Hcbt, Hunk, Hcbn. rewrite Hcbt, Hunk, Hcbn.
  split; [apply map_names_sum|]. split; [apply analyze_sum|].
  split; [apply analyze_unknown|]. split; [|apply analyze_NoDup].
  intros t. rewrite analyze_unknown, absent_dict_get.
  case_decide; [by rewrite bool_decide_eq_true_2|by rewrite bool_decide_eq_false_2].
Qed.

(** ** Required events *)

Lemma resolved_names_elem tm logs n :
  n ∈ resolved_names tm logs
  ↔ ∃ lg t e, lg ∈ logs ∧ first_topic lg = Some t
              ∧ tm !! t = Some e ∧ name e = n.
Proof.
  unfold resolved_names. rewrite list_elem_of_omap. split.
  - intros (lg & Hin & Hf). exists lg.
    destruct (first_topic lg) as [t|]; [|done]. simpl in Hf.
    destruct (tm !! t) as [e|] eqn:E; [|done]. simpl in Hf.
    injection Hf as <-. by exists t, e.
  - intros (lg & t & e & Hin & Ht & He & <-). exists lg. split; [done|].
    rewrite Ht. simpl. by rewrite He.
Qed.

Lemma present_names_observed tm logs n :
  n ∈ present_names (map_names tm (analyze_topics tm logs).1)
  ↔ observed tm logs n = true.
Proof.
  unfold present_names, observed.
  rewrite elem_of_list_to_set, list_elem_of_In, List.filter_In,
    <- list_elem_of_In, map_names_keys, andb_true_iff, bool_decide_eq_true,
    resolved_names_elem.
  split.
  - intros [(t & Ht & Hn) Hs]. split; [done|].
    apply analyze_keys in Ht as (lg & Hin & Hf).
    exists lg, t. unfold resolve_name in Hn.
    destruct (tm !! t) as [e|] eqn:E.
    + by exists e.
    + subst n. by rewrite unknown_name_synthetic in Hs.
  - intros [Hs (lg & t & e & Hin & Hf & He & Hn)]. split; [|done].
    exists t. split; [apply analyze_keys; by exists lg|].
    unfold resolve_name. by rewrite He.
Qed.

Lemma filter_ext_elem {A} (f g : A → bool) (l : list A) :
  (∀ x, x ∈ l → f x = g x) → List.filter f l = List.filter g l.
Proof.
  intros H. apply List.filter_ext_in. intros x Hx. apply H.
  by apply list_elem_of_In.
Qed.

(** C2: with a required list supplied, missing_required is the required
    names, in the order given, that are not observed; a name is observed
    when it does not start with "UNKNOWN(" and is the name the signature
    map gives to the first topic of some record.  So a synthetic label
    never stands for a required event: a required name that starts with
    "UNKNOWN(" is always reported missing. *)
Theorem missing_required_exact (tm : gmap string SignatureEntry)
    (logs : list Log) (reqs : list string)
    (cid : option Z) (addr : string) (fb tb : Z) :
  let r := classify tm logs (Some reqs) cid addr fb tb in
  missing_required r = List.filter (λ req, negb (observed tm logs req)) reqs
  ∧ (∀ n, n ∈ present_names (counts_by_name r) ↔ observed tm logs n = true)
  ∧ (∀ n, observed tm logs n = true
          ↔ is_synthetic n = false
            ∧ ∃ lg t e, lg ∈ logs ∧ first_topic lg = Some t
                        ∧ tm !! t = Some e ∧ name e = n)
  ∧ (∀ t, is_synthetic (unknown_name t) = true)
  ∧ (∀ req, req ∈ reqs → is_synthetic req = true → req ∈ missing_required r)
  ∧ required_check (Some ["Transfer"; "Approval"]) [("Transfer", 1%nat)]
    = ["Approval"].
Proof.
  intros r.
  destruct (classify_fields tm logs (Some reqs) cid addr fb tb)
    as (_ & _ & Hcbn & Hmiss & _).
  fold r in Hcbn, Hmiss.
  assert (Hpres : ∀ n, n ∈ present_names (counts_by_name r)
                       ↔ observed tm logs n = true).
  { intros n. rewrite Hcbn. apply present_names_observed. }
  assert (Hfilter : missing_required r
                    = List.filter (λ req, negb (observed tm logs req)) reqs).
  { rewrite Hmiss. unfold required_check. destruct reqs as [|q reqs]; [done|].
    rewrite <- Hcbn. apply filter_ext_elem. intros x _.
    destruct (observed tm logs x) eqn:E; simpl.
    - apply bool_decide_eq_false_2. intros Hn. by apply Hn, Hpres.
    - apply bool_decide_eq_true_2. intros Hn%Hpres. congruence. }
  split; [done|]. split; [done|]. split; [|split; [|split; [|done]]].
  - intros n. unfold observed.
    rewrite andb_true_iff, negb_true_iff, bool_decide_eq_true,
      resolved_names_elem. done.
  - apply unknown_name_synthetic.
  - intros req Hin Hs. rewrite Hfilter.
    apply list_elem_of_In, List.filter_In. split; [by apply list_elem_of_In|].
    unfold observed. by rewrite Hs.
Qed.

Lemma missing_required_exact_witness :
  "UNKNOWN(0xabcd" ∈
    missing_required
      (classify ∅ [{| topics := [[171; 205]] |}]
         (Some ["Transfer"; "UNKNOWN(0xabcd"]) None "0xA" 0 0).
Proof.
  destruct (missing_required_exact ∅ [{| topics := [[171; 205]] |}]
              ["Transfer"; "UNKNOWN(0xabcd"] None "0xA" 0 0)
    as (_ & _ & _ & _ & H & _).
  apply H; [|reflexivity].
  apply list_elem_of_further, list_elem_of_here.
Defined.

(** ** The run *)

Lemma main_finished_inv fuel w args r code :
  main fuel w args = Some (Returns (Finished r code)) →
  ∃ s sent logs,
    setup w args = Returns (inr s)
    ∧ fetch_logs fuel w (arg_address args) (su_from_block s) (su_to_block s)
        (Z.max 1 (arg_step args)) = Some (sent, Ok logs)
    ∧ r = classify (su_topic_map s) logs (su_required s) (su_chain_id s)
            (su_address s) (su_from_block s) (su_to_block s)
    ∧ code = exit_code (unknown_topics r) (missing_required r).
Proof.
  unfold main. destruct (setup w args) as [[why|s]|e|] eqn:Es; try done.
  unfold audit.
  destruct (fetch_logs _ _ _ _ _ _) as [[sent [logs|e]]|] eqn:Ef; try done.
  simpl. intros [= <- <-]. by exists s, sent, logs.
Qed.

Lemma main_finishes fuel w args s sent logs :
  setup w args = Returns (inr s) →
  fetch_logs fuel w (arg_address args) (su_from_block s) (su_to_block s)
    (Z.max 1 (arg_step args)) = Some (sent, Ok logs) →
  let r := classify (su_topic_map s) logs (su_required s) (su_chain_id s)
             (su_address s) (su_from_block s) (su_to_block s) in
  main fuel w args
  = Some (Returns (Finished r (exit_code (unknown_topics r)
                                 (missing_required r)))).
Proof. intros Hs Hf. unfold main, audit. by rewrite Hs, Hf. Qed.

Lemma exit_code_two unk (miss : list string) :
  exit_code unk miss = 2 ↔ unk ≠ [] ∨ miss ≠ [].
Proof.
  unfold exit_code. destruct unk, miss; simpl; split; try done;
    try (intros [?|?]; done); intros _; by (left + right).
Qed.

Lemma exit_code_zero unk (miss : list string) :
  exit_code unk miss = 0 ↔ unk = [] ∧ miss = [].
Proof.
  unfold exit_code. destruct unk, miss; simpl; split; try done; by intros [? ?].
Qed.

(** C3: a run that gets through data collection ends with the report and
    exit code 2 when unknown_topics or missing_required is non-empty, and
    exit code 0 otherwise.  No records, any topic map, no required list:
    counts_by_name and unknown_topics are empty and the code is 0.  One
    record whose first topic is no key of the topic map, no required
    list: unknown_topics has one entry and the code is 2. *)
Theorem exit_code_policy (fuel : nat) (w : World) (args : Args)
    (r : Report) (code : Z)
    (Hrun : main fuel w args = Some (Returns (Finished r code))) :
  (code = 2 ↔ unknown_topics r ≠ [] ∨ missing_required r ≠ [])
  ∧ (code = 0 ↔ unknown_topics r = [] ∧ missing_required r = [])
  ∧ (code = 2 ∨ code = 0)
  ∧ exit_status (Returns (Finished r code)) = Some code
  ∧ (∀ tm cid addr fb tb,
       let r0 := classify tm [] None cid addr fb tb in
       counts_by_name r0 = [] ∧ unknown_topics r0 = []
       ∧ exit_code (unknown_topics r0) (missing_required r0) = 0)
  ∧ (∀ tm lg t rest cid addr fb tb,
       topics lg = t :: rest → tm !! to_hex t = None →
       let r1 := classify tm [lg] None cid addr fb tb in
       unknown_topics r1 = [(to_hex t, 1%nat)]
       ∧ exit_code (unknown_topics r1) (missing_required r1) = 2).
Proof.
  destruct (main_finished_inv _ _ _ _ _ Hrun) as (s & sent & logs & _ & _ & _ & ->).
  split; [apply exit_code_two|]. split; [apply exit_code_zero|].
  split; [unfold exit_code; destruct (_ || _); auto|].
  split; [done|]. split; [done|].
  intros tm lg t rest cid addr fb tb Ht Hnone.
  unfold classify, analyze_topics. simpl. unfold first_topic.
  rewrite Ht. simpl. by rewrite Hnone.
Qed.

Lemma exit_code_policy_witness :
  ∃ r, main 3 sample_world sample_args = Some (Returns (Finished r 2))
       ∧ (unknown_topics r ≠ [] ∨ missing_required r ≠ []).
Proof.
  assert (Hrun : main 3 sample_world sample_args
                 = Some (Returns (Finished
                     {| rep_chain_id := Some 1; rep_address := "0xA";
                        from_block := 10; to_block := 25; logs_fetched := 2;
                        counts_by_topic := [("0xabcd", 2%nat)];
                        counts_by_name :=
                          [("UNKNOWN(0xabcd" +:+ ellipsis +:+ ")", 2%nat)];
                        unknown_topics := [("0xabcd", 2%nat)];
                        required_events := None;
                        missing_required := [] |} 2)))
    by (vm_compute; reflexivity).
  eexists. split; [exact Hrun|].
  apply (exit_code_policy _ _ _ _ _ Hrun). reflexivity.
Defined.

Lemma setup_address w args s :
  setup w args = Returns (inr s) →
  to_checksum_address w (arg_address args) = Ok (su_address s).
Proof.
  unfold setup. destruct (is_connected w); simpl; [|done].
  destruct (block_number w); [|done]. destruct (_ >? _); [done|].
  destruct (to_checksum_address w _); [|done].
  destruct (load_abi w _); [|done].
  destruct (build_event_signature_map _); simpl; try done.
  destruct (load_required w _); [|done]. by intros [= <-].
Qed.

Lemma main_terminates w args :
  ∃ fuel0, ∀ fuel, (fuel0 ≤ fuel)%nat → is_Some (main fuel w args).
Proof.
  unfold main. destruct (setup w args) as [[why|s]|e|];
    try (exists 0%nat; intros; by eexists).
  exists (S (remaining (su_from_block s) (su_to_block s))). intros fuel Hfuel.
  unfold audit, fetch_logs, chunk_ranges.
  destruct (chunk_loop_terminates fuel (su_from_block s) (su_to_block s)
              (Z.max 1 (arg_step args)) [] ltac:(lia) ltac:(lia)) as [l ->].
  simpl. destruct (fetch_loop _ _ _ _ _) as [sent [logs|e]]; by eexists.
Qed.

(** C9: with step >= 1 the loop of [chunk_ranges] ends: every iteration
    moves [cur] strictly forward, and once the fuel exceeds the number of
    blocks in the range the result is there.  [main] hands max(1, step)
    to the fetcher, so a run ends whatever [--step] says, and a step
    below one runs as step one. *)
Theorem chunker_terminates (w : World) (args : Args) (start end_ step : Z)
    (Hstep : 1 ≤ step) :
  (∃ l, ∀ fuel, (remaining start end_ < fuel)%nat →
        chunk_ranges fuel start end_ step = Some l)
  ∧ (∀ cur, cur ≤ end_ → cur < rng_end cur end_ step + 1)
  ∧ (∃ fuel0, ∀ fuel, (fuel0 ≤ fuel)%nat → is_Some (main fuel w args))
  ∧ (∀ fuel, main fuel w (with_step (Z.max 1 (arg_step args)) args)
             = main fuel w args).
Proof.
  split; [by apply chunk_ranges_total|].
  split; [intros cur Hcur; by apply rng_end_progress|].
  split; [apply main_terminates|].
  intros fuel. unfold main, setup, audit. simpl.
  by rewrite (Z.max_r 1 (Z.max 1 _)) by lia.
Qed.

Lemma chunker_terminates_witness :
  (∃ l, chunk_ranges 17 10 25 10 = Some l)
  ∧ ∃ fuel0, ∀ fuel, (fuel0 ≤ fuel)%nat →
      is_Some (main fuel sample_world (with_step (-3) sample_args)).
Proof.
  destruct (chunker_terminates sample_world (with_step (-3) sample_args)
              10 25 10 ltac:(lia)) as ([l Hl] & _ & Hmain & _).
  split; [|exact Hmain].
  exists l. apply Hl. vm_compute. lia.
Defined.

(** ** Log fetcher *)

Lemma fetch_loop_acc w address chunks all_logs sent :
  fetch_loop w address chunks all_logs sent
  = let '(sent', r) := fetch_loop w address chunks [] [] in
    (sent ++ sent',
     match r with Ok logs => Ok (all_logs ++ logs) | Fails e => Fails e end).
Proof.
  revert all_logs sent.
  induction chunks as [|[a b] chunks IH]; intros all_logs sent; simpl.
  - by rewrite !app_nil_r.
  - destruct (to_checksum_address w address) as [addr|e];
      [|by rewrite app_nil_r].
    destruct (get_logs w addr a b) as [logs|e]; [|done].
    rewrite (IH (all_logs ++ logs)), (IH logs [(a, b)]).
    destruct (fetch_loop w address chunks [] []) as [sent' [l|e]];
      by rewrite <- !app_assoc.
Qed.

Lemma fetch_loop_ok w address addr chunks :
  to_checksum_address w address = Ok addr →
  forallb (answers w addr) chunks = true →
  fetch_loop w address chunks [] []
  = (chunks, Ok (flat_map (chunk_logs w addr) chunks)).
Proof.
  intros Haddr. induction chunks as [|[a b] chunks IH]; [done|].
  simpl. unfold answers at 1, chunk_logs at 1. simpl. rewrite Haddr.
  destruct (get_logs w addr a b) as [logs|e]; [|done].
  simpl. intros Hrest. by rewrite fetch_loop_acc, (IH Hrest).
Qed.

Lemma fetch_loop_fails w address addr pre c post e :
  to_checksum_address w address = Ok addr →
  forallb (answers w addr) pre = true →
  get_logs w addr c.1 c.2 = Fails e →
  fetch_loop w address (pre ++ c :: post) [] [] = (pre ++ [c], Fails e).
Proof.
  intros Haddr Hpre Hc. induction pre as [|[a b] pre IH]; simpl.
  - destruct c as [a b]. simpl in Hc. by rewrite Haddr, Hc.
  - simpl in Hpre. unfold answers at 1 in Hpre. simpl in Hpre.
    rewrite Haddr. destruct (get_logs w addr a b) as [logs|e']; [|done].
    by rewrite fetch_loop_acc, (IH Hpre).
Qed.

Lemma first_failure {A} (f : A → bool) (l : list A) :
  forallb f l = false →
  ∃ pre c post, l = pre ++ c :: post ∧ forallb f pre = true ∧ f c = false.
Proof.
  induction l as [|x l IH]; [done|]. simpl.
  destruct (f x) eqn:E; simpl.
  - intros (pre & c & post & -> & Hpre & Hc)%IH.
    exists (x :: pre), c, post. simpl. by rewrite E.
  - intros _. by exists [], x, l.
Qed.

(** C7: the fetch is all or nothing.  The queries go out in chunk order;
    at the first one that fails, [fetch_logs] fails with that error, hands
    back none of the records fetched so far, sends nothing further and
    repeats nothing, and [main] then leaves with status 1 and without a
    report.  When every query is answered, [fetch_logs] returns the
    answers joined in chunk order. *)
Theorem fetch_logs_all_or_nothing (fuel : nat) (w : World)
    (address addr : string) (fb tb step : Z) (chunks : list (Z * Z))
    (Haddr : to_checksum_address w address = Ok addr)
    (Hchunks : chunk_ranges fuel fb tb step = Some chunks) :
  (∀ pre c post e,
     chunks = pre ++ c :: post →
     forallb (answers w addr) pre = true →
     get_logs w addr c.1 c.2 = Fails e →
     fetch_logs fuel w address fb tb step = Some (pre ++ [c], Fails e))
  ∧ (forallb (answers w addr) chunks = false →
     ∃ sent e, fetch_logs fuel w address fb tb step = Some (sent, Fails e))
  ∧ (forallb (answers w addr) chunks = true →
     fetch_logs fuel w address fb tb step
     = Some (chunks, Ok (flat_map (chunk_logs w addr) chunks)))
  ∧ (∀ args s sent e,
       setup w args = Returns (inr s) →
       fetch_logs fuel w (arg_address args) (su_from_block s) (su_to_block s)
         (Z.max 1 (arg_step args)) = Some (sent, Fails e) →
       main fuel w args = Some (Returns (Fatal (FetchFailed e)))
       ∧ exit_status (Returns (Fatal (FetchFailed e))) = Some 1
       ∧ emitted_report (Returns (Fatal (FetchFailed e))) = None).
Proof.
  assert (Hfail : ∀ pre c post e,
     chunks = pre ++ c :: post →
     forallb (answers w addr) pre = true →
     get_logs w addr c.1 c.2 = Fails e →
     fetch_logs fuel w address fb tb step = Some (pre ++ [c], Fails e)).
  { intros pre c post e -> Hpre Hc. unfold fetch_logs. rewrite Hchunks. simpl.
    by rewrite (fetch_loop_fails w address addr pre c post e). }
  split; [exact Hfail|]. split; [|split].
  - intros (pre & c & post & Heq & Hpre & Hc)%first_failure.
    unfold answers in Hc.
    destruct (get_logs w addr c.1 c.2) as [logs|e] eqn:E; [done|].
    exists (pre ++ [c]), e. by eapply Hfail.
  - intros Hall. unfold fetch_logs. rewrite Hchunks. simpl.
    by rewrite (fetch_loop_ok w address addr).
  - intros args s sent e Hs Hf. unfold main, audit. by rewrite Hs, Hf.
Qed.

Lemma fetch_logs_all_or_nothing_witness :
  fetch_logs 3 failing_world "0xA" 10 25 10
  = Some ([(10, 19); (20, 25)], Fails (Failure "timeout"))
  ∧ main 3 failing_world sample_args
    = Some (Returns (Fatal (FetchFailed (Failure "timeout")))).
Proof.
  destruct (fetch_logs_all_or_nothing 3 failing_world "0xA" "0xA" 10 25 10
              [(10, 19); (20, 25)] eq_refl eq_refl) as (Hfail & _ & _ & Hmain).
  pose proof (Hfail [(10, 19)] (20, 25) [] (Failure "timeout")
                eq_refl eq_refl eq_refl) as Hf.
  split; [exact Hf|].
  refine (proj1 (Hmain sample_args sample_setup _ _ _ Hf)).
  vm_compute. reflexivity.
Defined.

(** ** Signature mapper *)

Lemma length_append (s1 s2 : string) :
  String.length (s1 +:+ s2) = (String.length s1 + String.length s2)%nat.
Proof. induction s1 as [|c s1 IH]; simpl; [done|]. by rewrite IH. Qed.

Lemma hex_length bs : String.length (hex bs) = (2 * length bs)%nat.
Proof.
  induction bs as [|b bs IH]; [done|].
  cbn [hex length]. rewrite length_append, IH. simpl. lia.
Qed.

Lemma keccak256_length msg : length (Keccak.keccak256 msg) = 32%nat.
Proof. reflexivity. Qed.

Lemma topic_length sig : String.length (topic_of_signature sig) = 66%nat.
Proof.
  unfold topic_of_signature, keccak.
  by rewrite length_append, hex_length, keccak256_length.
Qed.

Lemma hex_digit_alphabet x : hex_digit (Z.land x 15) ∈ hex_alphabet.
Proof.
  assert (H : 0 ≤ Z.land x 15 < 16).
  { change 15 with (Z.ones 4). rewrite Z.land_ones by lia.
    apply Z.mod_pos_bound. lia. }
  generalize dependent (Z.land x 15). intros d H.
  assert (Hd : d = 0 ∨ d = 1 ∨ d = 2 ∨ d = 3 ∨ d = 4 ∨ d = 5 ∨ d = 6 ∨ d = 7
               ∨ d = 8 ∨ d = 9 ∨ d = 10 ∨ d = 11 ∨ d = 12 ∨ d = 13 ∨ d = 14
               ∨ d = 15) by lia.
  apply list_elem_of_In.
  repeat (destruct Hd as [->|Hd]; [vm_compute; tauto|]).
  subst d. vm_compute. tauto.
Qed.

Lemma hex_alphabet_all bs :
  Forall (λ c, c ∈ hex_alphabet) (list_ascii_of_string (hex bs)).
Proof.
  induction bs as [|b bs IH]; [constructor|].
  change (hex (b :: bs))
    with (String (hex_digit (Z.land (Z.shiftr b 4) 15))
            (String (hex_digit (Z.land b 15)) (hex bs))).
  cbn [list_ascii_of_string].
  constructor; [apply hex_digit_alphabet|].
  constructor; [apply hex_digit_alphabet|]. exact IH.
Qed.

Lemma input_types_declared ins tys :
  mapM declared_type ins = Some tys →
  input_types ins = Returns (JStr <$> tys) ∧ as_strings (JStr <$> tys) = Some tys.
Proof.
  revert tys. induction ins as [|i ins IH]; intros tys.
  - intros [= <-]. done.
  - cbn [mapM]. destruct (declared_type i) as [ty|] eqn:Ei; [|done].
    simpl. destruct (mapM declared_type ins) as [tys'|]; [|done].
    simpl. intros [= <-]. destruct (IH tys' eq_refl) as [IH1 IH2].
    split.
    + cbn [input_types]. rewrite IH1.
      destruct i as [| | | |?|fs]; try done. simpl in Ei |- *.
      destruct (dict_get fs "type") as [[| | |ty'| |]|]; try done.
      by injection Ei as ->.
    + rewrite fmap_cons. cbn [as_strings]. by rewrite IH2.
Qed.

Lemma string_nonempty_truthy nm : nm ≠ "" → truthy (JStr nm) = true.
Proof. simpl. by destruct (String.eqb_spec nm ""). Qed.

Lemma is_event_kind fields :
  dict_get fields "type" = Some (JStr "event") → is_event fields = true.
Proof. unfold is_event. by intros ->. Qed.

Lemma build_step_typed tm fields nm ins tys :
  dict_get fields "type" = Some (JStr "event") →
  dict_get fields "name" = Some (JStr nm) →
  nm ≠ "" →
  default (JArr []) (dict_get fields "inputs") = JArr ins →
  mapM declared_type ins = Some tys →
  let sig := nm +:+ "(" +:+ String.concat "," tys +:+ ")" in
  build_step tm (JObj fields)
  = Returns (<[topic_of_signature sig :=
                 {| name := nm; inputs := ins; signature := sig |}]> tm).
Proof.
  intros Hkind Hname Hnm Hinputs Htypes sig.
  destruct (input_types_declared ins tys Htypes) as [Hins Hstr].
  unfold build_step. rewrite (is_event_kind _ Hkind), Hname, Hinputs.
  cbn [from_option id negb is_list list_items].
  rewrite (string_nonempty_truthy nm Hnm). cbn [negb orb].
  rewrite Hins. cbn [mbind outcome_bind]. unfold join_comma.
  rewrite Hstr. done.
Qed.

(** The digest of the empty message, as published with Keccak. *)
Example keccak_empty :
  hex (keccak "")
  = "c5d2460186f7233c927e7db2dcc703c0e500b653ca82273b7bfad8045d85a470".
Proof. vm_compute. reflexivity. Qed.

Lemma transfer_topic_hash :
  topic_of_signature "Transfer(address,address,uint256)" = transfer_topic.
Proof. vm_compute. reflexivity. Qed.

(** C5: an event definition with a name and inputs that all carry a type
    string goes into the map under the topic "0x" + lower-case hex of
    keccak256(signature), where signature = name + "(" + the type strings
    joined by "," + ")"; the topic is 66 characters long.  The ERC-20
    Transfer definition gives "Transfer(address,address,uint256)" and
    the topic 0xddf2...b3ef. *)
Theorem signature_derivation (tm : gmap string SignatureEntry)
    (fields : pydict json) (nm : string) (ins : list json) (tys : list string)
    (Hkind : dict_get fields "type" = Some (JStr "event"))
    (Hname : dict_get fields "name" = Some (JStr nm))
    (Hnm : nm ≠ "")
    (Hinputs : dict_get fields "inputs" = Some (JArr ins))
    (Htypes : mapM declared_type ins = Some tys) :
  let sig := nm +:+ "(" +:+ String.concat "," tys +:+ ")" in
  let topic := "0x" +:+ hex (Keccak.keccak256 (bytes_of_string sig)) in
  build_step tm (JObj fields)
  = Returns (<[topic := {| name := nm; inputs := ins; signature := sig |}]> tm)
  ∧ String.length topic = 66%nat
  ∧ Forall (λ c, c ∈ hex_alphabet)
      (list_ascii_of_string (hex (Keccak.keccak256 (bytes_of_string sig))))
  ∧ build_event_signature_map [transfer_event]
    = Returns (<[transfer_topic :=
                   {| name := "Transfer"; inputs := transfer_inputs;
                      signature := "Transfer(address,address,uint256)" |}]> ∅).
Proof.
  intros sig topic.
  split; [|split; [apply topic_length|split; [apply hex_alphabet_all|]]].
  - apply build_step_typed; try done. by rewrite Hinputs.
  - unfold build_event_signature_map, build_from, transfer_event.
    rewrite (build_step_typed ∅ transfer_fields "Transfer" transfer_inputs
               ["address"; "address"; "uint256"]
               eq_refl eq_refl ltac:(discriminate) eq_refl eq_refl).
    rewrite <- transfer_topic_hash. done.
Qed.

Lemma signature_derivation_witness :
  ∃ m, build_step ∅ transfer_event = Returns m
       ∧ signature <$> m !! transfer_topic
         = Some "Transfer(address,address,uint256)".
Proof.
  eexists. split.
  - refine (proj1 (signature_derivation ∅ transfer_fields "Transfer"
                     transfer_inputs ["address"; "address"; "uint256"]
                     _ _ _ _ _));
      [reflexivity | reflexivity | discriminate | reflexivity | reflexivity].
  - vm_compute. reflexivity.
Defined.

Lemma is_event_other fields :
  dict_get fields "type" ≠ Some (JStr "event") → is_event fields = false.
Proof.
  unfold is_event. destruct (dict_get fields "type") as [[| | |s| |]|]; try done.
  destruct (String.eqb_spec s "event") as [->|]; done.
Qed.

Lemma build_step_passed_over tm item :
  passed_over item → build_step tm item = Returns tm.
Proof.
  intros (fields & -> & H). unfold build_step.
  destruct (is_event fields) eqn:Ee; [|done]. simpl.
  destruct H as [H|[H|[H|(v & H & Hv)]]].
  - by rewrite is_event_other in Ee.
  - by rewrite H.
  - by rewrite H.
  - rewrite H. simpl. rewrite Hv. by rewrite orb_true_r.
Qed.

Lemma build_from_passed_over tm abi :
  Forall passed_over abi → build_from tm abi = Returns tm.
Proof.
  induction 1 as [|item abi Hitem _ IH]; [done|].
  simpl. by rewrite build_step_passed_over.
Qed.

Lemma build_from_app tm abi1 abi2 :
  build_from tm (abi1 ++ abi2)
  = tm' ← build_from tm abi1; build_from tm' abi2.
Proof.
  revert tm. induction abi1 as [|item abi1 IH]; intros tm; [done|].
  simpl. destruct (build_step tm item); simpl; auto.
Qed.

Lemma setup_after_load w args items :
  abi_loaded w args items →
  setup w args
  = topic_map ← build_event_signature_map items;
    match load_required w (arg_expected_events args) with
    | Fails e => Returns (inl (ExpectedLoadFailed e))
    | Ok required =>
        Returns (inr {| su_chain_id :=
                          match chain_id w with
                          | Ok c => Some c
                          | Fails _ => None
                          end;
                        su_from_block :=
                          match block_number w with
                          | Ok latest => range_start args latest
                          | Fails _ => 0
                          end;
                        su_to_block :=
                          match block_number w with
                          | Ok latest => range_end args latest
                          | Fails _ => 0
                          end;
                        su_address :=
                          match to_checksum_address w (arg_address args) with
                          | Ok addr => addr
                          | Fails _ => ""
                          end;
                        su_topic_map := topic_map;
                        su_required := required |})
    end.
Proof.
  intros (Hc & (latest & Hb & Hr) & (addr & Ha) & Hl).
  unfold setup. rewrite Hc, Hb, Ha, Hl. simpl.
  destruct (Z.gtb_spec (range_start args latest) (range_end args latest));
    [lia|done].
Qed.

(** C6, as the code has it: a definition that is not of event kind, or
    has a missing or empty name, or has an inputs field that is not a
    list, adds nothing to the map and raises nothing; an event
    definition that has a name and no inputs field at all counts as an
    event without parameters and is entered under name + "()".  An ABI
    without a qualifying definition gives the empty map, and the run
    goes on to fetch the logs. *)
Theorem passed_over_definitions (tm : gmap string SignatureEntry)
    (abi : list json) (Hnone : Forall passed_over abi) :
  (∀ item, passed_over item → build_step tm item = Returns tm)
  ∧ (∀ fields nm,
       dict_get fields "type" = Some (JStr "event") →
       dict_get fields "name" = Some (JStr nm) → nm ≠ "" →
       dict_get fields "inputs" = None →
       build_step tm (JObj fields)
       = Returns (<[topic_of_signature (nm +:+ "()") :=
                      {| name := nm; inputs := [];
                         signature := nm +:+ "()" |}]> tm))
  ∧ build_event_signature_map abi = Returns ∅
  ∧ (∀ w args required,
       abi_loaded w args abi →
       load_required w (arg_expected_events args) = Ok required →
       ∃ s, setup w args = Returns (inr s)
            ∧ su_topic_map s = ∅
            ∧ ∀ fuel, main fuel w args = Returns <$> audit fuel w args s).
Proof.
  split; [intros item; apply build_step_passed_over|].
  split.
  { intros fields nm Hkind Hname Hnm Hin.
    apply (build_step_typed tm fields nm [] []); try done. by rewrite Hin. }
  split; [by apply build_from_passed_over|].
  intros w args required Hload Hreq.
  rewrite (setup_after_load w args abi Hload).
  unfold build_event_signature_map. rewrite build_from_passed_over by done.
  simpl. rewrite Hreq. eexists. split; [done|]. split; [done|].
  intros fuel. unfold main. rewrite (setup_after_load w args abi Hload).
  unfold build_event_signature_map. rewrite build_from_passed_over by done.
  simpl. by rewrite Hreq.
Qed.

Lemma passed_over_definitions_witness :
  build_event_signature_map passed_over_abi = Returns ∅.
Proof.
  refine (proj1 (proj2 (proj2 (passed_over_definitions ∅ passed_over_abi _)))).
  unfold passed_over_abi.
  constructor; [|constructor; [|constructor; [|constructor]]].
  - eexists. split; [reflexivity|]. left. discriminate.
  - eexists. split; [reflexivity|]. right. left. reflexivity.
  - eexists. split; [reflexivity|]. right. right. right.
    eexists. split; reflexivity.
Defined.

(** An event definition without an inputs field is not passed over: it
    is entered as an event without parameters. *)
Lemma missing_inputs_counterexample :
  (∃ fields, ping_event = JObj fields ∧ dict_get fields "inputs" = None)
  ∧ build_event_signature_map [ping_event]
    = Returns (<[topic_of_signature "Ping()" :=
                   {| name := "Ping"; inputs := []; signature := "Ping()" |}]> ∅)
  ∧ build_event_signature_map [ping_event] ≠ Returns ∅.
Proof.
  assert (H : build_event_signature_map [ping_event]
              = Returns (<[topic_of_signature "Ping()" :=
                   {| name := "Ping"; inputs := []; signature := "Ping()" |}]> ∅)).
  { unfold build_event_signature_map, build_from, ping_event.
    by rewrite (build_step_typed ∅
                  [("type", JStr "event"); ("name", JStr "Ping")] "Ping" [] []
                  eq_refl eq_refl ltac:(discriminate) eq_refl eq_refl). }
  split; [eexists; split; reflexivity|]. split; [exact H|].
  rewrite H. generalize (topic_of_signature "Ping()").
  intros k Hm.
  apply (f_equal (λ o, match o with Returns m => m | _ => ∅ end)) in Hm.
  cbv beta iota in Hm. by apply insert_non_empty in Hm.
Qed.

(** ** Inputs without a type *)

Lemma input_type_not_unmodelled i : input_type i ≠ Unmodelled.
Proof.
  destruct i as [| | | | |fs]; try done. simpl. by destruct (dict_get fs "type").
Qed.

Lemma input_types_raises ins :
  (∃ fs, JObj fs ∈ ins ∧ dict_get fs "type" = None) →
  ∃ e, input_types ins = Raises e ∧ (e = KeyError "type" ∨ e = TypeError).
Proof.
  induction ins as [|i ins IH]; intros (fs & Hin & Hfs).
  - by apply elem_of_nil in Hin.
  - cbn [input_types]. destruct (input_type i) as [t|e|] eqn:Ei.
    + apply elem_of_cons in Hin as [<-|Hin].
      { simpl in Ei. by rewrite Hfs in Ei. }
      destruct IH as (e & -> & He); [by exists fs|]. by exists e.
    + exists e. split; [done|].
      destruct i as [| | | | |fs']; simpl in Ei; try (injection Ei as <-; by right).
      destruct (dict_get fs' "type"); [done|]. injection Ei as <-. by left.
    + by apply input_type_not_unmodelled in Ei.
Qed.

(** The error is the [KeyError] when the entries before the one without
    a type are objects that do have one. *)
Lemma input_types_key_error pre fs post :
  Forall (λ i, ∃ fs' v, i = JObj fs' ∧ dict_get fs' "type" = Some v) pre →
  dict_get fs "type" = None →
  input_types (pre ++ JObj fs :: post) = Raises (KeyError "type").
Proof.
  intros Hpre Hfs. induction Hpre as [|i pre (fs' & v & -> & Hv) _ IH]; simpl.
  - by rewrite Hfs.
  - by rewrite Hv, IH.
Qed.

Lemma build_step_typeless tm fields ins e :
  dict_get fields "type" = Some (JStr "event") →
  truthy (default JNull (dict_get fields "name")) = true →
  dict_get fields "inputs" = Some (JArr ins) →
  input_types ins = Raises e →
  build_step tm (JObj fields) = Raises e.
Proof.
  intros Hkind Hname Hinputs Hins. unfold build_step.
  rewrite (is_event_kind _ Hkind), Hname, Hinputs. simpl. by rewrite Hins.
Qed.

(** C8: an event definition that has a name and an inputs list with an
    entry lacking the "type" field is not passed over: [build_step]
    raises (the KeyError of the missing key, or the TypeError of an
    earlier entry that is no object), whatever the map built so far; so
    [build_event_signature_map] never returns on an ABI that holds such
    a definition, and [main], which calls it outside any [try], ends
    with the exception and status 1. *)
Theorem typeless_input_raises (tm : gmap string SignatureEntry)
    (fields : pydict json) (ins : list json) (fs : pydict json)
    (Hkind : dict_get fields "type" = Some (JStr "event"))
    (Hname : truthy (default JNull (dict_get fields "name")) = true)
    (Hinputs : dict_get fields "inputs" = Some (JArr ins))
    (Hin : JObj fs ∈ ins)
    (Hfs : dict_get fs "type" = None) :
  ∃ e,
    (e = KeyError "type" ∨ e = TypeError)
    ∧ build_step tm (JObj fields) = Raises e
    ∧ (∀ pre post tm',
         build_from tm pre = Returns tm' →
         build_from tm (pre ++ JObj fields :: post) = Raises e)
    ∧ (∀ pre post m,
         build_event_signature_map (pre ++ JObj fields :: post) ≠ Returns m)
    ∧ (∀ pre' post',
         ins = pre' ++ JObj fs :: post' →
         Forall (λ i, ∃ fs' v, i = JObj fs' ∧ dict_get fs' "type" = Some v) pre' →
         e = KeyError "type")
    ∧ (∀ w args pre post tm' fuel,
         abi_loaded w args (pre ++ JObj fields :: post) →
         build_event_signature_map pre = Returns tm' →
         main fuel w args = Some (Raises e)
         ∧ exit_status (Raises e) = Some 1).
Proof.
  destruct (input_types_raises ins) as (e & Hins & He); [by exists fs|].
  assert (Hstep : ∀ tm0, build_step tm0 (JObj fields) = Raises e).
  { intros tm0. by apply (build_step_typeless tm0 fields ins e). }
  assert (Hfrom : ∀ tm0 pre post tm',
            build_from tm0 pre = Returns tm' →
            build_from tm0 (pre ++ JObj fields :: post) = Raises e).
  { intros tm0 pre post tm' Hpre. rewrite build_from_app, Hpre.
    cbn [mbind outcome_bind build_from]. by rewrite Hstep. }
  exists e. split; [done|]. split; [apply Hstep|]. split; [apply Hfrom|].
  split; [|split].
  - intros pre post m. unfold build_event_signature_map.
    rewrite build_from_app.
    destruct (build_from ∅ pre) as [tm'| |];
      cbn [mbind outcome_bind build_from]; [|done|done].
    by rewrite Hstep.
  - intros pre' post' -> Hpre.
    rewrite (input_types_key_error pre' fs post' Hpre Hfs) in Hins.
    by injection Hins as <-.
  - intros w args pre post tm' fuel Hload Hpre. split; [|done].
    unfold main. rewrite (setup_after_load w args _ Hload).
    unfold build_event_signature_map in *.
    by rewrite (Hfrom ∅ pre post tm' Hpre).
Qed.

Lemma typeless_input_raises_witness :
  build_event_signature_map [transfer_event; typeless_event]
  = Raises (KeyError "type").
Proof.
  destruct (typeless_input_raises ∅
              [("type", JStr "event"); ("name", JStr "Oops");
               ("inputs", JArr [JObj [("name", JStr "x")]])]
              [JObj [("name", JStr "x")]] [("name", JStr "x")]
              eq_refl eq_refl eq_refl ltac:(apply list_elem_of_here) eq_refl)
    as (e & _ & _ & Hfrom & _ & Hkey & _).
  rewrite <- (Hkey [] [] eq_refl ltac:(constructor)).
  refine (Hfrom [transfer_event] [] _ _).
  unfold build_from, transfer_event.
  by rewrite (build_step_typed ∅ transfer_fields "Transfer" transfer_inputs
                ["address"; "address"; "uint256"]
                eq_refl eq_refl ltac:(discriminate) eq_refl eq_refl).
Defined.

(** ** Two runs, end to end *)

(** No range given and block 4 the latest: the range is [0, 4], in steps
    of one (the step 0 is coerced).  Five queries, each with one
    [Transfer] record and one record without topics; the required event
    is there, nothing is unknown, exit code 0. *)
Example transfer_run :
  main 6 transfer_world transfer_args
  = Some (Returns (Finished
      {| rep_chain_id := None; rep_address := "0xA";
         from_block := 0; to_block := 4; logs_fetched := 10;
         counts_by_topic := [(transfer_topic, 5%nat)];
         counts_by_name := [("Transfer", 5%nat)];
         unknown_topics := [];
         required_events := Some ["Transfer"];
         missing_required := [] |} 0)).
Proof. vm_compute. reflexivity. Qed.

(** Too little fuel for the five chunks: no result yet. *)
Example transfer_run_short : main 5 transfer_world transfer_args = None.
Proof. vm_compute. reflexivity. Qed.

(** * Further properties *)

(** ** Range chunker *)

Lemma chunk_loop_closed fuel cur end_ step :
  1 ≤ step → (remaining cur end_ < fuel)%nat →
  chunk_loop fuel cur end_ step []
  = Some (nth_chunk cur end_ step <$> seq 0 (chunk_count cur end_ step)).
Proof.
  intros Hstep. revert cur.
  induction fuel as [|fuel IH]; intros cur Hfuel; [lia|].
  destruct (Z.le_gt_cases cur end_) as [Hle|Hgt].
  - rewrite chunk_loop_unfold by done.
    pose proof (rng_end_progress cur end_ step Hstep Hle) as Hp.
    rewrite IH by (unfold remaining in *; lia). simpl. f_equal.
    unfold chunk_count, rng_end in *.
    destruct (Z.lt_ge_cases (cur + step - 1) end_) as [Hlt|Hge].
    + rewrite Z.min_l by lia.
      rewrite (ceil_div_step (end_ - cur + 1) step) by lia.
      replace (end_ - (cur + step - 1 + 1) + 1 + step - 1)
        with (end_ - cur + 1 - step + step - 1) by lia.
      assert (0 ≤ (end_ - cur + 1 - step + step - 1) / step)
        by (apply Z.div_pos; lia).
      rewrite Z2Nat.inj_add by lia. change (Z.to_nat 1) with 1%nat.
      cbn [Nat.add seq fmap list_fmap]. f_equal.
      * unfold nth_chunk. f_equal; [lia|]. rewrite Z.min_l by lia. lia.
      * rewrite <- fmap_S_seq, <- list_fmap_compose.
        apply list_fmap_ext. intros _ k _. unfold nth_chunk. simpl.
        f_equal; [lia|]. f_equal. lia.
    + rewrite Z.min_r by lia.
      rewrite (ceil_div_one (end_ - cur + 1) step) by lia.
      replace (end_ - (end_ + 1) + 1 + step - 1) with (step - 1) by lia.
      rewrite Z.div_small by lia. simpl.
      unfold nth_chunk. f_equal. f_equal; [lia|]. rewrite Z.min_r by lia. done.
  - simpl. destruct (Z.leb_spec cur end_); [lia|].
    unfold chunk_count.
    assert ((end_ - cur + 1 + step - 1) / step ≤ 0) as Hz.
    { apply Z.lt_succ_r. apply Z.div_lt_upper_bound; lia. }
    rewrite Z2Nat.nonpos by done. done.
Qed.

Lemma chunks_of_closed start end_ step :
  1 ≤ step →
  chunks_of start end_ step
  = nth_chunk start end_ step <$> seq 0 (chunk_count start end_ step).
Proof.
  intros Hstep. unfold chunks_of, chunk_ranges.
  by rewrite chunk_loop_closed by (done || lia).
Qed.

Lemma chunk_ranges_chunks_of fuel start end_ step :
  1 ≤ step → (remaining start end_ < fuel)%nat →
  chunk_ranges fuel start end_ step = Some (chunks_of start end_ step).
Proof.
  intros Hstep Hfuel. rewrite chunks_of_closed by done.
  by apply chunk_loop_closed.
Qed.

Lemma chunk_count_bounds start end_ step k :
  1 ≤ step → (S k < chunk_count start end_ step)%nat →
  start + (Z.of_nat k + 1) * step - 1 < end_.
Proof.
  intros Hstep Hk. unfold chunk_count in Hk.
  pose proof (ceil_div_bounds (end_ - start + 1) step Hstep) as [Hlo _].
  assert (Z.of_nat (S k) < (end_ - start + 1 + step - 1) / step) by lia.
  nia.
Qed.

Lemma chunk_count_last start end_ step :
  1 ≤ step → start ≤ end_ →
  Z.of_nat (chunk_count start end_ step) = (end_ - start) / step + 1.
Proof.
  intros Hstep Hle. unfold chunk_count.
  replace (end_ - start + 1 + step - 1) with (end_ - start + 1 * step) by lia.
  rewrite Z.div_add by lia.
  assert (0 ≤ (end_ - start) / step) by (apply Z.div_pos; lia). lia.
Qed.

(** X1: for step >= 1 the list of sub-ranges has a closed form: the k-th
    one is (start + k*step, min(start + (k+1)*step - 1, end)), for k below
    ceil((end - start + 1) / step).  Every sub-range but the last holds
    exactly [step] blocks; the last one ends at [end] and holds
    ((end - start) mod step) + 1 blocks. *)
Theorem chunk_ranges_closed_form (start end_ step : Z) (Hstep : 1 ≤ step) :
  (∀ fuel, (remaining start end_ < fuel)%nat →
     chunk_ranges fuel start end_ step
     = Some (nth_chunk start end_ step <$> seq 0 (chunk_count start end_ step)))
  ∧ (∀ k, (S k < chunk_count start end_ step)%nat →
          width (nth_chunk start end_ step k) = step)
  ∧ (start ≤ end_ →
     let last := nth_chunk start end_ step (pred (chunk_count start end_ step)) in
     last.2 = end_ ∧ width last = (end_ - start) mod step + 1).
Proof.
  split; [intros fuel Hfuel; by apply chunk_loop_closed|]. split.
  - intros k Hk. pose proof (chunk_count_bounds _ _ _ _ Hstep Hk).
    unfold width, nth_chunk. simpl. rewrite Z.min_l by lia. lia.
  - intros Hle last.
    pose proof (chunk_count_last start end_ step Hstep Hle) as Hc.
    pose proof (Z.div_mod (end_ - start) step ltac:(lia)) as Hdm.
    pose proof (Z.mod_pos_bound (end_ - start) step ltac:(lia)) as Hm.
    assert (Hp : Z.of_nat (pred (chunk_count start end_ step))
                 = (end_ - start) / step) by lia.
    unfold last, width, nth_chunk. simpl. rewrite Hp.
    rewrite Z.min_r by nia. split; [done|]. nia.
Qed.

Lemma chunk_ranges_closed_form_witness :
  chunk_ranges 17 10 25 4 = Some [(10, 13); (14, 17); (18, 21); (22, 25)]
  ∧ width (nth_chunk 10 25 10 1) = 6.
Proof.
  split.
  - destruct (chunk_ranges_closed_form 10 25 4 ltac:(lia)) as (H & _).
    rewrite H by (vm_compute; lia). reflexivity.
  - destruct (chunk_ranges_closed_form 10 25 10 ltac:(lia)) as (_ & _ & H).
    exact (proj2 (H ltac:(lia))).
Defined.

(** X2: with a step below one and a non-empty range the loop of
    [chunk_ranges] never ends: [cur] does not move forward, and no
    number of iterations yields a result. *)
Theorem chunk_ranges_nonpositive_step (start end_ step : Z)
    (Hstep : step ≤ 0) (Hrange : start ≤ end_) :
  (∀ fuel, chunk_ranges fuel start end_ step = None)
  ∧ (∀ cur, cur ≤ end_ → rng_end cur end_ step + 1 ≤ cur).
Proof.
  split.
  - intros fuel. by apply chunk_loop_diverges.
  - intros cur Hcur. unfold rng_end. lia.
Qed.

Lemma chunk_ranges_nonpositive_step_witness :
  chunk_ranges 1000 10 25 0 = None ∧ rng_end 10 25 0 + 1 ≤ 10.
Proof.
  destruct (chunk_ranges_nonpositive_step 10 25 0 ltac:(lia) ltac:(lia))
    as [H1 H2].
  split; [apply H1|apply H2; lia].
Defined.

Lemma nth_chunk_shift start end_ step m k :
  nth_chunk start end_ step (m + k)
  = nth_chunk (start + Z.of_nat m * step) end_ step k.
Proof. unfold nth_chunk. f_equal; [lia|f_equal; lia]. Qed.

(** X3: cutting a range at the end of its m-th sub-range and chunking
    the two parts gives the same sub-ranges as chunking the whole. *)
Theorem chunk_ranges_split (start end_ step : Z) (m : nat)
    (Hstep : 1 ≤ step)
    (Hcut : start + Z.of_nat m * step - 1 ≤ end_) :
  chunks_of start end_ step
  = chunks_of start (start + Z.of_nat m * step - 1) step
    ++ chunks_of (start + Z.of_nat m * step) end_ step
  ∧ ∀ a b fuel, (remaining a b < fuel)%nat →
      chunk_ranges fuel a b step = Some (chunks_of a b step).
Proof.
  split; [|intros a b fuel Hfuel; by apply chunk_ranges_chunks_of].
  rewrite !chunks_of_closed by done.
  assert (Hc1 : chunk_count start (start + Z.of_nat m * step - 1) step = m).
  { unfold chunk_count.
    replace (start + Z.of_nat m * step - 1 - start + 1 + step - 1)
      with (step - 1 + Z.of_nat m * step) by lia.
    rewrite Z.div_add, Z.div_small by lia. lia. }
  assert (Hc : chunk_count start end_ step
               = (m + chunk_count (start + Z.of_nat m * step) end_ step)%nat).
  { unfold chunk_count.
    replace (end_ - start + 1 + step - 1)
      with (end_ - (start + Z.of_nat m * step) + 1 + step - 1
            + Z.of_nat m * step) by lia.
    rewrite Z.div_add by lia.
    assert (0 ≤ (end_ - (start + Z.of_nat m * step) + 1 + step - 1) / step)
      by (apply Z.div_pos; lia).
    lia. }
  rewrite Hc, Hc1, seq_app, fmap_app. f_equal.
  - apply Forall_fmap_ext, Forall_forall. intros k Hk%elem_of_seq.
    unfold nth_chunk. f_equal.
    rewrite !Z.min_l by nia. done.
  - assert (Hseq : ∀ c, seq (0 + m) c = Nat.add m <$> seq 0 c).
    { intros c. rewrite fmap_add_seq. f_equal. lia. }
    rewrite Hseq, <- list_fmap_compose.
    apply list_fmap_ext. intros _ k _. simpl. apply nth_chunk_shift.
Qed.

Lemma chunk_ranges_split_witness :
  chunks_of 10 25 4 = chunks_of 10 17 4 ++ chunks_of 18 25 4.
Proof. exact (proj1 (chunk_ranges_split 10 25 4 2 ltac:(lia) ltac:(lia))). Defined.

(** ** Log fetcher *)

Lemma fetch_loop_prefix w address chunks :
  (fetch_loop w address chunks [] []).1 `prefix_of` chunks
  ∧ (∀ logs, (fetch_loop w address chunks [] []).2 = Ok logs →
             (fetch_loop w address chunks [] []).1 = chunks).
Proof.
  induction chunks as [|[a b] chunks [IH1 IH2]]; simpl.
  - split; [done|]. done.
  - destruct (to_checksum_address w address) as [addr|e]; simpl;
      [|split; [apply prefix_nil|done]].
    destruct (get_logs w addr a b) as [logs|e]; simpl;
      [|split; [by apply prefix_cons, prefix_nil|done]].
    rewrite fetch_loop_acc.
    destruct (fetch_loop w address chunks [] []) as [sent' r]. simpl in *.
    split; [by apply prefix_cons|].
    intros logs'. destruct r as [l|e]; [|done].
    intros _. f_equal. by eapply IH2.
Qed.

Lemma tiles_bounds lo hi l :
  tiles lo hi l → Forall (λ c, lo ≤ c.1 ∧ c.1 ≤ c.2 ∧ c.2 ≤ hi) l.
Proof.
  revert lo. induction l as [|[a b] l IH]; intros lo Ht; simpl in *.
  - constructor.
  - destruct Ht as (-> & Hab & Hb & Ht). constructor; [simpl; lia|].
    eapply Forall_impl; [by apply IH|]. simpl. intros; lia.
Qed.

Lemma chunks_of_tiles start end_ step :
  1 ≤ step → start ≤ end_ + 1 → tiles start end_ (chunks_of start end_ step).
Proof.
  intros Hstep Hle.
  pose proof (chunk_ranges_chunks_of (S (remaining start end_)) start end_ step
                Hstep ltac:(lia)) as Hrun.
  by destruct (chunk_loop_shape _ start end_ step _ Hstep Hle Hrun).
Qed.

Lemma chunk_ranges_empty fuel start end_ step :
  end_ < start → fuel ≠ 0%nat → chunk_ranges fuel start end_ step = Some [].
Proof.
  intros Hlt Hfuel. destruct fuel as [|fuel]; [done|].
  unfold chunk_ranges. simpl. by destruct (Z.leb_spec start end_); [lia|].
Qed.

Lemma filter_prefix_length {A} (f : A → bool) (l1 l2 : list A) :
  l1 `prefix_of` l2 →
  (length (List.filter f l1) ≤ length (List.filter f l2))%nat.
Proof. intros [k ->]. rewrite List.filter_app, length_app. lia. Qed.

(** X4: whatever the node answers, the queries [fetch_logs] sends are an
    initial part of the sub-ranges of [chunk_ranges], in that order: each
    lies within [from, to], they ascend without overlap, and no block is
    asked for twice.  When the fetch succeeds all sub-ranges were sent, so
    every block of the range was asked for exactly once. *)
Theorem fetch_logs_queries (fuel : nat) (w : World) (address : string)
    (fb tb step : Z) (sent : list (Z * Z)) (r : reply (list Log))
    (Hstep : 1 ≤ step) (Hrange : fb ≤ tb)
    (Hrun : fetch_logs fuel w address fb tb step = Some (sent, r)) :
  sent `prefix_of` chunks_of fb tb step
  ∧ Forall (λ c, fb ≤ c.1 ∧ c.1 ≤ c.2 ∧ c.2 ≤ tb) sent
  ∧ StronglySorted (λ c c', c.2 < c'.1) sent
  ∧ (∀ x, (length (List.filter (covers x) sent) ≤ 1)%nat)
  ∧ (∀ logs, r = Ok logs →
       sent = chunks_of fb tb step
       ∧ ∀ x, length (List.filter (covers x) sent)
              = if bool_decide (fb ≤ x ≤ tb) then 1%nat else 0%nat).
Proof.
  unfold fetch_logs in Hrun.
  destruct (chunk_ranges fuel fb tb step) as [chunks|] eqn:Ec; [|done].
  simpl in Hrun. injection Hrun as Hrun.
  assert (Hchunks : chunks = chunks_of fb tb step).
  { pose proof (chunk_loop_fuel_mono fuel (fuel `max` S (remaining fb tb))
                 _ _ _ _ _ ltac:(lia) Ec) as H1.
    pose proof (chunk_ranges_chunks_of (fuel `max` S (remaining fb tb))
                  fb tb step Hstep ltac:(lia)) as H2.
    unfold chunk_ranges in *. congruence. }
  subst chunks.
  pose proof (chunks_of_tiles fb tb step Hstep ltac:(lia)) as Ht.
  destruct (fetch_loop_prefix w address (chunks_of fb tb step)) as [Hp Hall].
  rewrite Hrun in Hp, Hall. simpl in Hp, Hall.
  split; [done|]. destruct Hp as [k Hk].
  pose proof (tiles_bounds _ _ _ Ht) as Hb.
  pose proof (tiles_ascending _ _ _ Ht) as Hs.
  rewrite Hk in Hb, Hs.
  split; [by apply Forall_app in Hb as [? _]|].
  split; [by apply StronglySorted_app_1_l in Hs|].
  split.
  - intros x.
    pose proof (filter_prefix_length (covers x) sent (chunks_of fb tb step)
                  ltac:(by exists k)) as Hle.
    rewrite (tiles_covers _ _ _ x Ht) in Hle. case_bool_decide; lia.
  - intros logs ->. rewrite (Hall logs eq_refl). split; [done|].
    intros x. by apply tiles_covers.
Qed.

Lemma fetch_logs_queries_witness :
  (length (List.filter (covers 19) [(10, 19); (20, 25)]%Z) ≤ 1)%nat.
Proof.
  exact (proj1 (proj2 (proj2 (proj2
    (fetch_logs_queries 3 failing_world "0xA" 10 25 10
       [(10, 19); (20, 25)] (Fails (Failure "timeout"))
       ltac:(lia) ltac:(lia) eq_refl)))) 19).
Defined.

(** X5: on an empty range (to < from) [chunk_ranges] returns no sub-range
    at once, whatever the step, and [fetch_logs] returns no records
    without checking the address or asking the node. *)
Theorem fetch_logs_empty_range (fuel : nat) (w : World) (address : string)
    (fb tb step : Z) (Hempty : tb < fb) (Hfuel : fuel ≠ 0%nat) :
  chunk_ranges fuel fb tb step = Some []
  ∧ fetch_logs fuel w address fb tb step = Some ([], Ok []).
Proof.
  pose proof (chunk_ranges_empty fuel fb tb step Hempty Hfuel) as Hc.
  split; [done|]. unfold fetch_logs. by rewrite Hc.
Qed.

Lemma fetch_logs_empty_range_witness :
  fetch_logs 1 failing_world "0xA" 30 25 (-2) = Some ([], Ok []).
Proof.
  exact (proj2 (fetch_logs_empty_range 1 failing_world "0xA" 30 25 (-2)
                  ltac:(lia) ltac:(discriminate))).
Defined.

(** X6: when the address cannot be put in checksum form and the range is
    not empty, [fetch_logs] fails with that error before any query goes
    out. *)
Theorem fetch_logs_bad_address (fuel : nat) (w : World) (address : string)
    (fb tb step : Z) (e : exn)
    (Hstep : 1 ≤ step) (Hrange : fb ≤ tb)
    (Hfuel : (remaining fb tb < fuel)%nat)
    (Haddr : to_checksum_address w address = Fails e) :
  fetch_logs fuel w address fb tb step = Some ([], Fails e).
Proof.
  unfold fetch_logs, chunk_ranges.
  destruct fuel as [|fuel]; [lia|].
  rewrite chunk_loop_unfold by done.
  destruct (chunk_loop_terminates fuel (rng_end fb tb step + 1) tb step []
              Hstep) as [l ->].
  { pose proof (rng_end_progress fb tb step Hstep Hrange).
    unfold remaining in *. lia. }
  simpl. by rewrite Haddr.
Qed.

Lemma fetch_logs_bad_address_witness :
  fetch_logs 17 bad_address_world "0xA" 10 25 10
  = Some ([], Fails (ValueError "invalid address")).
Proof.
  apply fetch_logs_bad_address; [lia|lia|vm_compute; lia|reflexivity].
Defined.

(** ** Signature mapper *)

Lemma input_types_strings ins ts tys :
  input_types ins = Returns ts → as_strings ts = Some tys →
  mapM declared_type ins = Some tys.
Proof.
  revert ts tys. induction ins as [|i ins IH]; intros ts tys.
  - simpl. intros [= <-]. simpl. by intros [= <-].
  - cbn [input_types].
    destruct (input_type i) as [t| |] eqn:Ei; [|done|done].
    cbn [mbind outcome_bind].
    destruct (input_types ins) as [ts'| |] eqn:Eins; [|done|done].
    cbn [mbind outcome_bind mret outcome_ret]. intros [= <-].
    destruct t as [| | |ty| |]; try done. cbn [as_strings].
    destruct (as_strings ts') as [tys'|] eqn:Es; [|done].
    simpl. intros [= <-]. cbn [mapM].
    rewrite (IH ts' tys' eq_refl Es).
    destruct i as [| | | | |fs]; try done. simpl in Ei |- *.
    destruct (dict_get fs "type") as [v|]; [|done].
    by injection Ei as ->.
Qed.

(** What one iteration does to the map, when it returns. *)
Lemma build_step_entry tm item tm' :
  build_step tm item = Returns tm' →
  tm' = match event_entry item with
        | Some e => <[entry_topic e := e]> tm
        | None => tm
        end.
Proof.
  destruct item as [| | | | |fields]; try done.
  unfold build_step, event_entry.
  destruct (is_event fields); cbn [negb]; [|by intros [= <-]].
  destruct (dict_get fields "name") as [nv|]; cbn [from_option id];
    [|by intros [= <-]].
  destruct (default (JArr []) (dict_get fields "inputs")) as [| | | |ins|] eqn:Ei;
    cbn [is_list negb orb list_items];
    try (rewrite orb_true_r; intros [= <-]; by destruct nv as [| | |nm| |]).
  rewrite orb_false_r.
  destruct (truthy nv) eqn:Et; cbn [negb].
  - destruct (input_types ins) as [ts| |] eqn:Eins; [|done|done].
    cbn [mbind outcome_bind]. unfold join_comma.
    destruct (as_strings ts) as [tys|] eqn:Es; [|done].
    cbn [mbind outcome_bind].
    destruct nv as [| | |nm| |]; try done. cbn [name_text mbind outcome_bind].
    intros [= <-].
    simpl in Et. destruct (String.eqb nm ""); [done|].
    by rewrite (input_types_strings ins ts tys Eins Es).
  - intros [= <-]. destruct nv as [| | |nm| |]; try done.
    simpl in Et. by destruct (String.eqb nm "").
Qed.

Lemma build_from_entries tm abi m :
  build_from tm abi = Returns m →
  m = enter_all tm (omap event_entry abi).
Proof.
  revert tm. induction abi as [|item abi IH]; intros tm; simpl.
  - by intros [= <-].
  - destruct (build_step tm item) as [tm'| |] eqn:Es; [|done|done].
    cbn [mbind outcome_bind]. intros Hm%IH. subst m.
    rewrite (build_step_entry tm item tm' Es).
    by destruct (event_entry item).
Qed.

(** What [event_entry] promises about the entry it gives. *)
Lemma event_entry_shape item e :
  event_entry item = Some e →
  name e ≠ ""
  ∧ ∃ tys, mapM declared_type (inputs e) = Some tys
           ∧ signature e = name e +:+ "(" +:+ String.concat "," tys +:+ ")".
Proof.
  destruct item as [| | | | |fields]; try done. unfold event_entry.
  destruct (is_event fields); [|done].
  destruct (dict_get fields "name") as [[| | |nm| |]|]; try done.
  destruct (default (JArr []) (dict_get fields "inputs")) as [| | | |ins|];
    try done.
  destruct (String.eqb_spec nm ""); [done|].
  destruct (mapM declared_type ins) as [tys|] eqn:Em; [|done].
  simpl. intros [= <-]. simpl. split; [done|]. by exists tys.
Qed.

Lemma enter_all_snoc tm es e :
  enter_all tm (es ++ [e]) = <[entry_topic e := e]> (enter_all tm es).
Proof. unfold enter_all. by rewrite fold_left_app. Qed.

Lemma enter_all_lookup es topic e :
  enter_all ∅ es !! topic = Some e →
  e ∈ es ∧ entry_topic e = topic.
Proof.
  induction es as [|e' es IH] using rev_ind; [done|].
  rewrite enter_all_snoc. destruct (decide (entry_topic e' = topic)) as [<-|Hne].
  - rewrite lookup_insert_eq. intros [= <-].
    split; [apply elem_of_app; right; apply list_elem_of_here|done].
  - rewrite lookup_insert_ne by done. intros [Hin Ht]%IH.
    split; [apply elem_of_app; by left|done].
Qed.

Lemma enter_all_other tm es topic :
  Forall (λ e, entry_topic e ≠ topic) es →
  enter_all tm es !! topic = tm !! topic.
Proof.
  revert tm. induction es as [|e es IH]; intros tm Hes; [done|].
  apply Forall_cons in Hes as [He Hes]. unfold enter_all. simpl.
  fold (enter_all (<[entry_topic e := e]> tm) es).
  by rewrite IH, lookup_insert_ne.
Qed.

Lemma enter_all_app tm es1 es2 :
  enter_all tm (es1 ++ es2) = enter_all (enter_all tm es1) es2.
Proof. unfold enter_all. by rewrite fold_left_app. Qed.

Lemma enter_all_dom es :
  dom (enter_all ∅ es) = list_to_set (entry_topic <$> es).
Proof.
  induction es as [|e es IH] using rev_ind; [apply dom_empty_L|].
  rewrite enter_all_snoc, dom_insert_L, IH, fmap_app, list_to_set_app_L.
  simpl. rewrite (right_id_L ∅ (∪)). apply (comm_L (∪)).
Qed.

Lemma enter_all_size es : (size (enter_all ∅ es) ≤ length es)%nat.
Proof.
  induction es as [|e es IH] using rev_ind.
  { change (enter_all ∅ []) with (∅ : gmap string SignatureEntry).
    by rewrite map_size_empty. }
  rewrite enter_all_snoc, map_size_insert, length_app. simpl.
  destruct (enter_all ∅ es !! entry_topic e); simpl; lia.
Qed.

Lemma event_entry_is_event item e :
  event_entry item = Some e → is_event_item item = true.
Proof.
  destruct item as [| | | | |fields]; try done. simpl.
  by destruct (is_event fields).
Qed.

Lemma omap_event_entry_length abi :
  (length (omap event_entry abi) ≤ length (List.filter is_event_item abi))%nat.
Proof.
  induction abi as [|item abi IH]; [done|].
  change (omap event_entry (item :: abi))
    with (match event_entry item with
          | Some y => y :: omap event_entry abi
          | None => omap event_entry abi
          end).
  cbn [List.filter].
  destruct (event_entry item) as [e|] eqn:E.
  - rewrite (event_entry_is_event item e E). cbn [length]. lia.
  - destruct (is_event_item item); cbn [length]; lia.
Qed.

(** X7: every key of a map the builder returns is the topic of the entry
    stored under it: "0x" and the 64 hex digits of the Keccak-256 digest
    of the entry's signature, 66 characters.  The entry has a non-empty
    name, its signature is the name followed by the type strings of its
    stored inputs, joined by commas in parentheses, and it is the entry
    of some definition of the ABI. *)
Theorem built_map_keys (abi : list json) (m : gmap string SignatureEntry)
    (topic : string) (e : SignatureEntry)
    (Hbuild : build_event_signature_map abi = Returns m)
    (Hlookup : m !! topic = Some e) :
  topic = "0x" +:+ hex (Keccak.keccak256 (bytes_of_string (signature e)))
  ∧ String.length topic = 66%nat
  ∧ name e ≠ ""
  ∧ (∃ tys, mapM declared_type (inputs e) = Some tys
            ∧ signature e = name e +:+ "(" +:+ String.concat "," tys +:+ ")")
  ∧ ∃ item, item ∈ abi ∧ event_entry item = Some e.
Proof.
  apply build_from_entries in Hbuild. subst m.
  apply enter_all_lookup in Hlookup as [Hin <-].
  apply list_elem_of_omap in Hin as (item & Hin & He).
  destruct (event_entry_shape item e He) as (Hnm & tys & Htys & Hsig).
  split; [done|]. split; [apply topic_length|]. split; [done|].
  split; [by exists tys|]. by exists item.
Qed.

Lemma built_map_keys_witness : String.length transfer_topic = 66%nat.
Proof.
  refine (proj1 (proj2 (built_map_keys [transfer_event]
            (built [transfer_event]) transfer_topic
            {| name := "Transfer"; inputs := transfer_inputs;
               signature := "Transfer(address,address,uint256)" |} _ _)));
    vm_compute; reflexivity.
Defined.

(** X8: the map the builder returns is the result of entering the
    entries of the qualifying definitions in ABI order, so a later
    definition replaces an earlier one with the same topic: under a
    topic the map holds the entry of the last definition that has it. *)
Theorem built_map_last_wins (abi : list json)
    (m : gmap string SignatureEntry)
    (Hbuild : build_event_signature_map abi = Returns m) :
  m = enter_all ∅ (omap event_entry abi)
  ∧ ∀ pre item post e,
      abi = pre ++ item :: post →
      event_entry item = Some e →
      Forall (λ it, ∀ e', event_entry it = Some e' →
                          entry_topic e' ≠ entry_topic e) post →
      m !! entry_topic e = Some e.
Proof.
  apply build_from_entries in Hbuild. split; [done|].
  intros pre item post e -> He Hpost. subst m.
  rewrite omap_app.
  change (omap event_entry (item :: post))
    with (match event_entry item with
          | Some y => y :: omap event_entry post
          | None => omap event_entry post
          end).
  rewrite He, enter_all_app.
  change (e :: omap event_entry post) with ([e] ++ omap event_entry post).
  rewrite enter_all_app, enter_all_other.
  - unfold enter_all at 1. simpl. apply lookup_insert_eq.
  - apply Forall_forall. intros e' (it & Hit & He')%list_elem_of_omap.
    rewrite Forall_forall in Hpost. by eapply Hpost.
Qed.

Lemma built_map_last_wins_witness :
  inputs <$> built [transfer_event; transfer_again] !! transfer_topic
  = Some [JObj [("type", JStr "address"); ("indexed", JBool true)];
          JObj [("type", JStr "address"); ("indexed", JBool true)];
          JObj [("type", JStr "uint256")]].
Proof.
  assert (Hb : build_event_signature_map [transfer_event; transfer_again]
               = Returns (built [transfer_event; transfer_again]))
    by (vm_compute; reflexivity).
  destruct (built_map_last_wins _ _ Hb) as [_ H].
  assert (He : event_entry transfer_again
               = Some {| name := "Transfer";
                         inputs := [JObj [("type", JStr "address");
                                          ("indexed", JBool true)];
                                    JObj [("type", JStr "address");
                                          ("indexed", JBool true)];
                                    JObj [("type", JStr "uint256")]];
                         signature := "Transfer(address,address,uint256)" |})
    by reflexivity.
  pose proof (H [transfer_event] transfer_again [] _ eq_refl He
                ltac:(constructor)) as Hl.
  unfold entry_topic in Hl. cbn [signature] in Hl.
  rewrite transfer_topic_hash in Hl. by rewrite Hl.
Defined.

(** X9: the topics of a map the builder returns are exactly the topics
    of the qualifying definitions; the map has at most one entry per
    qualifying definition, hence at most one per definition of event
    kind. *)
Theorem built_map_domain (abi : list json) (m : gmap string SignatureEntry)
    (Hbuild : build_event_signature_map abi = Returns m) :
  dom m = list_to_set (entry_topic <$> omap event_entry abi)
  ∧ (size m ≤ length (omap event_entry abi))%nat
  ∧ (length (omap event_entry abi)
     ≤ length (List.filter is_event_item abi))%nat.
Proof.
  apply build_from_entries in Hbuild. subst m.
  split; [apply enter_all_dom|]. split; [apply enter_all_size|].
  apply omap_event_entry_length.
Qed.

Lemma built_map_domain_witness :
  (size (built [transfer_event; transfer_again]) ≤ 2)%nat.
Proof.
  assert (Hb : build_event_signature_map [transfer_event; transfer_again]
               = Returns (built [transfer_event; transfer_again]))
    by (vm_compute; reflexivity).
  exact (proj1 (proj2 (built_map_domain _ _ Hb))).
Defined.

Lemma build_from_raises tm pre item post tm' e :
  build_from tm pre = Returns tm' →
  (∀ tm0, build_step tm0 item = Raises e) →
  build_from tm (pre ++ item :: post) = Raises e.
Proof.
  intros Hpre Hstep. rewrite build_from_app, Hpre.
  cbn [mbind outcome_bind build_from]. by rewrite Hstep.
Qed.

Lemma build_never_returns pre item post e m :
  (∀ tm0, build_step tm0 item = Raises e) →
  build_event_signature_map (pre ++ item :: post) ≠ Returns m.
Proof.
  intros Hstep. unfold build_event_signature_map. rewrite build_from_app.
  destruct (build_from ∅ pre) as [tm'| |];
    cbn [mbind outcome_bind build_from]; [|done|done].
  by rewrite Hstep.
Qed.

Lemma main_build_raises fuel w args abi e :
  abi_loaded w args abi →
  build_event_signature_map abi = Raises e →
  main fuel w args = Some (Raises e).
Proof.
  intros Hload Hb. unfold main.
  by rewrite (setup_after_load w args abi Hload), Hb.
Qed.

(** X10: an element of the ABI array that is no object makes the builder
    raise AttributeError ([item.get] on a value that has none) when the
    loop reaches it; the definitions after it are never looked at, the
    builder does not return, and [main] ends with that exception and
    status 1. *)
Theorem non_object_item_raises (tm : gmap string SignatureEntry)
    (pre post : list json) (item : json)
    (Hitem : is_object item = false) :
  build_step tm item = Raises AttributeError
  ∧ (∀ tm', build_from tm pre = Returns tm' →
            build_from tm (pre ++ item :: post) = Raises AttributeError)
  ∧ (∀ m, build_event_signature_map (pre ++ item :: post) ≠ Returns m)
  ∧ (∀ w args tm' fuel,
       abi_loaded w args (pre ++ item :: post) →
       build_event_signature_map pre = Returns tm' →
       main fuel w args = Some (Raises AttributeError)
       ∧ exit_status (Raises AttributeError) = Some 1).
Proof.
  assert (Hstep : ∀ tm0, build_step tm0 item = Raises AttributeError).
  { intros tm0. by destruct item. }
  split; [apply Hstep|]. split.
  { intros tm' Hpre. by eapply build_from_raises. }
  split; [intros m; by eapply build_never_returns|].
  intros w args tm' fuel Hload Hpre. split; [|done].
  apply (main_build_raises fuel w args _ _ Hload).
  by eapply build_from_raises.
Qed.

Lemma non_object_item_raises_witness :
  build_event_signature_map [transfer_event; JStr "event"; ping_event]
  = Raises AttributeError.
Proof.
  refine (proj1 (proj2 (non_object_item_raises ∅ [transfer_event] [ping_event]
                          (JStr "event") eq_refl)) _ _).
  unfold build_from, transfer_event.
  by rewrite (build_step_typed ∅ transfer_fields "Transfer" transfer_inputs
                ["address"; "address"; "uint256"]
                eq_refl eq_refl ltac:(discriminate) eq_refl eq_refl).
Defined.

Lemma input_types_all_typed ins :
  Forall (λ i, ∃ fs v, i = JObj fs ∧ dict_get fs "type" = Some v) ins →
  ∃ ts, input_types ins = Returns ts
        ∧ Forall2 (λ i t, ∃ fs, i = JObj fs ∧ dict_get fs "type" = Some t) ins ts.
Proof.
  induction 1 as [|i ins (fs & v & -> & Hv) _ (ts & Hts & IH)].
  - exists []. split; [done|constructor].
  - exists (v :: ts). split.
    + cbn [input_types input_type]. by rewrite Hv, Hts.
    + constructor; [by exists fs|done].
Qed.

Lemma as_strings_None ts :
  Exists (λ t, ∀ s, t ≠ JStr s) ts → as_strings ts = None.
Proof.
  induction 1 as [t ts Ht|t ts _ IH].
  - destruct t as [| | |s| |]; try done. by destruct (Ht s).
  - destruct t as [| | |s| |]; try done. simpl. by rewrite IH.
Qed.

Lemma odd_type_carried ins ts :
  Forall2 (λ i t, ∃ fs, i = JObj fs ∧ dict_get fs "type" = Some t) ins ts →
  Exists (λ i, ∃ fs v, i = JObj fs ∧ dict_get fs "type" = Some v
                       ∧ ∀ s, v ≠ JStr s) ins →
  Exists (λ t, ∀ s, t ≠ JStr s) ts.
Proof.
  induction 1 as [|i t ins ts (fs & -> & Ht) Hrel IH]; intros Hodd.
  - by apply Exists_nil in Hodd.
  - apply Exists_cons in Hodd as [(fs' & v & [= <-] & Hv & Hs)|Hodd].
    + apply Exists_cons_hd. rewrite Ht in Hv. by injection Hv as ->.
    + apply Exists_cons_tl. by apply IH.
Qed.

(** X11: an event definition with a name whose inputs entries all have a
    "type" field, one of them with a value that is no string, makes the
    builder raise TypeError (from [",".join]), whatever was built
    before. *)
Theorem non_string_type_raises (tm : gmap string SignatureEntry)
    (fields : pydict json) (ins : list json)
    (Hkind : dict_get fields "type" = Some (JStr "event"))
    (Hname : truthy (default JNull (dict_get fields "name")) = true)
    (Hinputs : dict_get fields "inputs" = Some (JArr ins))
    (Htyped : Forall (λ i, ∃ fs v, i = JObj fs ∧ dict_get fs "type" = Some v) ins)
    (Hodd : Exists (λ i, ∃ fs v, i = JObj fs ∧ dict_get fs "type" = Some v
                                 ∧ ∀ s, v ≠ JStr s) ins) :
  build_step tm (JObj fields) = Raises TypeError
  ∧ ∀ pre post m,
      build_event_signature_map (pre ++ JObj fields :: post) ≠ Returns m.
Proof.
  assert (Hstep : ∀ tm0, build_step tm0 (JObj fields) = Raises TypeError).
  { intros tm0.
    destruct (input_types_all_typed ins Htyped) as (ts & Hts & Hrel).
    assert (Hnone : as_strings ts = None).
    { apply as_strings_None. by eapply odd_type_carried. }
    unfold build_step.
    rewrite (is_event_kind _ Hkind), Hname, Hinputs.
    cbn [from_option id negb orb is_list list_items].
    rewrite Hts. cbn [mbind outcome_bind]. unfold join_comma.
    by rewrite Hnone. }
  split; [apply Hstep|].
  intros pre post m. by eapply build_never_returns.
Qed.

Lemma non_string_type_raises_witness :
  build_event_signature_map [odd_type_event] = Raises TypeError.
Proof.
  refine (proj1 (non_string_type_raises ∅
            [("type", JStr "event"); ("name", JStr "Odd");
             ("inputs", JArr [JObj [("type", JNum 5)]])]
            [JObj [("type", JNum 5)]] eq_refl eq_refl eq_refl _ _)).
  - constructor; [|constructor]. by exists [("type", JNum 5)], (JNum 5).
  - apply Exists_cons_hd. by exists [("type", JNum 5)], (JNum 5).
Defined.

(** X12: a definition the mapper passes over can be taken out of the
    ABI, wherever it stands, without changing what the builder returns
    or raises. *)
Theorem passed_over_irrelevant (tm : gmap string SignatureEntry)
    (pre post : list json) (item : json)
    (Hitem : passed_over item) :
  build_from tm (pre ++ item :: post) = build_from tm (pre ++ post)
  ∧ build_event_signature_map (pre ++ item :: post)
    = build_event_signature_map (pre ++ post).
Proof.
  assert (H : ∀ tm0, build_from tm0 (pre ++ item :: post)
                     = build_from tm0 (pre ++ post)).
  { intros tm0. rewrite !build_from_app.
    destruct (build_from tm0 pre) as [tm'| |];
      cbn [mbind outcome_bind build_from]; [|done|done].
    by rewrite (build_step_passed_over tm' item Hitem). }
  split; [apply H|apply H].
Qed.

Lemma passed_over_irrelevant_witness :
  build_event_signature_map
    [transfer_event; JObj [("type", JStr "function")]; typeless_event]
  = build_event_signature_map [transfer_event; typeless_event].
Proof.
  refine (proj2 (passed_over_irrelevant ∅ [transfer_event] [typeless_event]
                   (JObj [("type", JStr "function")]) _)).
  eexists. split; [reflexivity|]. left. discriminate.
Defined.

(** ** Chunking is transparent *)

Lemma blocks_split a b c :
  a ≤ b + 1 → b ≤ c → blocks a c = blocks a b ++ blocks (b + 1) c.
Proof.
  intros Hab Hbc. unfold blocks.
  replace (c - a + 1) with ((b - a + 1) + (c - (b + 1) + 1)) by lia.
  rewrite seqZ_app by lia. do 2 f_equal; lia.
Qed.

Lemma tiles_blocks lo hi l :
  tiles lo hi l → flat_map (λ c, blocks c.1 c.2) l = blocks lo hi.
Proof.
  revert lo. induction l as [|[a b] l IH]; intros lo Ht; simpl in *.
  - subst lo. unfold blocks. by rewrite seqZ_nil by lia.
  - destruct Ht as (-> & Hab & Hb & Ht).
    rewrite (IH _ Ht). symmetry. apply blocks_split; lia.
Qed.

Lemma flat_map_flat_map {A B C} (f : B → list C) (g : A → list B) l :
  flat_map f (flat_map g l) = flat_map (λ x, flat_map f (g x)) l.
Proof.
  induction l as [|x l IH]; [done|]. simpl.
  by rewrite flat_map_app, IH.
Qed.

Lemma fetch_logs_by_block fuel w address addr block_logs fb tb step :
  1 ≤ step → fb ≤ tb + 1 → (remaining fb tb < fuel)%nat →
  to_checksum_address w address = Ok addr →
  answers_by_block w addr block_logs →
  fetch_logs fuel w address fb tb step
  = Some (chunks_of fb tb step, Ok (flat_map block_logs (blocks fb tb))).
Proof.
  intros Hstep Hrange Hfuel Haddr Hw. unfold fetch_logs.
  rewrite (chunk_ranges_chunks_of fuel fb tb step Hstep Hfuel). simpl.
  rewrite (fetch_loop_ok w address addr).
  - do 3 f_equal.
    rewrite <- (tiles_blocks fb tb (chunks_of fb tb step))
      by by apply chunks_of_tiles.
    rewrite flat_map_flat_map. apply flat_map_ext. intros c.
    unfold chunk_logs. by rewrite Hw.
  - done.
  - apply forallb_forall. intros c _. unfold answers. by rewrite Hw.
Qed.

(** X13: chunking is transparent.  When the node answers every query
    with the records of the blocks asked for, [fetch_logs] returns the
    records of the whole range in block order, whatever the step; so the
    outcome of [main], report and exit code, does not depend on
    [--step]. *)
Theorem step_independent (w : World) (args : Args) (su : Setup)
    (block_logs : Z → list Log) (step : Z) (fuel fuel' : nat)
    (Hsetup : setup w args = Returns (inr su))
    (Hnode : answers_by_block w (su_address su) block_logs)
    (Hfuel : (remaining (su_from_block su) (su_to_block su) < fuel)%nat)
    (Hfuel' : (remaining (su_from_block su) (su_to_block su) < fuel')%nat) :
  (1 ≤ step →
   fetch_logs fuel w (arg_address args) (su_from_block su) (su_to_block su) step
   = Some (chunks_of (su_from_block su) (su_to_block su) step,
           Ok (flat_map block_logs (blocks (su_from_block su) (su_to_block su)))))
  ∧ main fuel w (with_step step args) = main fuel' w args.
Proof.
  pose proof (setup_address w args su Hsetup) as Haddr.
  assert (Hrange : su_from_block su ≤ su_to_block su + 1).
  { revert Hsetup. unfold setup. destruct (is_connected w); simpl; [|done].
    destruct (block_number w) as [latest|]; [|done].
    destruct (Z.gtb_spec (range_start args latest) (range_end args latest));
      [done|].
    destruct (to_checksum_address w _); [|done].
    destruct (load_abi w _); [|done].
    destruct (build_event_signature_map _); simpl; try done.
    destruct (load_required w _); [|done]. intros [= <-]. simpl. lia. }
  split.
  - intros Hstep. by eapply fetch_logs_by_block.
  - assert (Hs : setup w (with_step step args) = Returns (inr su)) by done.
    unfold main. rewrite Hs, Hsetup. unfold audit.
    change (arg_address (with_step step args)) with (arg_address args).
    rewrite (fetch_logs_by_block fuel w (arg_address args) (su_address su)
               block_logs (su_from_block su) (su_to_block su)
               (Z.max 1 (arg_step (with_step step args)))
               ltac:(lia) Hrange Hfuel Haddr Hnode).
    by rewrite (fetch_logs_by_block fuel' w (arg_address args) (su_address su)
                  block_logs (su_from_block su) (su_to_block su)
                  (Z.max 1 (arg_step args))
                  ltac:(lia) Hrange Hfuel' Haddr Hnode).
Qed.

Lemma step_independent_witness :
  main 17 even_world (with_step 3 sample_args)
  = main 17 even_world sample_args.
Proof.
  refine (proj2 (step_independent even_world sample_args sample_setup
                   even_block_logs 3 17 17 _ _ _ _)).
  - vm_compute. reflexivity.
  - intros a b. reflexivity.
  - vm_compute. lia.
  - vm_compute. lia.
Defined.

(** ** Order and shape of the counters *)

Lemma distinct_elem x l : x ∈ distinct l ↔ x ∈ l.
Proof.
  induction l as [|y l IH]; [done|]. simpl.
  rewrite !elem_of_cons, list_elem_of_In, List.filter_In, <- list_elem_of_In, IH.
  destruct (String.eqb_spec y x) as [->|Hne]; simpl.
  - split; [by left|by left].
  - split; [intros [?|[? _]]; [by left|by right]|].
    intros [?|?]; [by left|by right].
Qed.

Lemma distinct_snoc l x :
  distinct (l ++ [x]) = if decide (x ∈ l) then distinct l else distinct l ++ [x].
Proof.
  induction l as [|y l IH].
  - reflexivity.
  - cbn [app distinct]. rewrite IH.
    destruct (decide (x ∈ l)) as [Hin|Hin].
    + by rewrite decide_True by by apply list_elem_of_further.
    + rewrite List.filter_app. simpl.
      destruct (String.eqb_spec y x) as [->|Hne]; simpl.
      * rewrite decide_True by apply list_elem_of_here. by rewrite app_nil_r.
      * rewrite decide_False; [done|].
        rewrite elem_of_cons. intros [?|?]; congruence.
Qed.

Lemma first_topics_snoc logs lg :
  first_topics (logs ++ [lg])
  = first_topics logs ++ match first_topic lg with Some t => [t] | None => [] end.
Proof.
  unfold first_topics. rewrite omap_app. f_equal.
Qed.

Lemma first_topics_elem logs t :
  t ∈ first_topics logs ↔ ∃ lg, lg ∈ logs ∧ first_topic lg = Some t.
Proof. unfold first_topics. apply list_elem_of_omap. Qed.

Lemma analyze_key_order tm logs :
  keys (analyze_topics tm logs).1 = distinct (first_topics logs).
Proof.
  induction logs as [|lg logs IH] using rev_ind; [done|].
  rewrite analyze_topics_snoc, analyze_step_fst, first_topics_snoc.
  destruct (first_topic lg) as [t0|]; [|by rewrite app_nil_r].
  unfold dict_add. rewrite keys_dict_set, distinct_snoc, IH.
  destruct (decide (t0 ∈ first_topics logs)) as [Hin|Hin].
  - by rewrite decide_True by by apply distinct_elem.
  - by rewrite decide_False by by rewrite distinct_elem.
Qed.

Lemma keys_filter {V} (P : string → bool) (d : pydict V) :
  keys (List.filter (λ kv, P kv.1) d) = List.filter P (keys d).
Proof.
  unfold keys. induction d as [|[k v] d IH]; [done|]. simpl.
  destruct (P k); simpl; by rewrite IH.
Qed.

Lemma keys_filter_absent tm (d : pydict nat) :
  keys (List.filter (absent tm) d) = List.filter (unknown_to tm) (keys d).
Proof. exact (keys_filter (unknown_to tm) d). Qed.

Lemma unknown_key_order tm logs :
  keys (analyze_topics tm logs).2
  = List.filter (unknown_to tm) (distinct (first_topics logs)).
Proof.
  rewrite analyze_unknown, <- (analyze_key_order tm).
  exact (keys_filter (unknown_to tm) (analyze_topics tm logs).1).
Qed.

(** X14: the keys of counts_by_topic are the first topics of the
    records, each once, in the order in which they first occur; the keys
    of unknown_topics are those of them that the signature map does not
    have, in the same order. *)
Theorem counter_key_order (tm : gmap string SignatureEntry)
    (logs : list Log) (required : option (list string))
    (cid : option Z) (addr : string) (fb tb : Z) :
  let r := classify tm logs required cid addr fb tb in
  keys (counts_by_topic r) = distinct (first_topics logs)
  ∧ keys (unknown_topics r)
    = List.filter (unknown_to tm) (distinct (first_topics logs))
  ∧ (∀ t, t ∈ keys (counts_by_topic r)
          ↔ ∃ lg, lg ∈ logs ∧ first_topic lg = Some t).
Proof.
  intros r.
  destruct (classify_fields tm logs required cid addr fb tb)
    as (Hcbt & Hunk & _).
  fold r in Hcbt, Hunk. rewrite Hcbt, Hunk.
  split; [apply analyze_key_order|]. split; [apply unknown_key_order|].
  intros t. apply analyze_keys.
Qed.

Lemma dict_set_Forall {V} (Q : V → Prop) (d : pydict V) k v :
  Forall (λ kv, Q kv.2) d → Q v → Forall (λ kv, Q kv.2) (dict_set d k v).
Proof.
  intros Hd Hv. induction Hd as [|[k0 v0] d H0 Hd IH]; simpl.
  - by repeat constructor.
  - destruct (String.eqb k0 k); constructor; done.
Qed.

Lemma dict_add_positive d k n :
  Forall (λ kv, 1 ≤ kv.2)%nat d → (1 ≤ n)%nat →
  Forall (λ kv, 1 ≤ kv.2)%nat (dict_add d k n).
Proof.
  intros Hd Hn. unfold dict_add.
  apply (dict_set_Forall (λ v, 1 ≤ v)%nat); [done|lia].
Qed.

Lemma analyze_positive tm logs :
  Forall (λ kv, 1 ≤ kv.2)%nat (analyze_topics tm logs).1.
Proof.
  induction logs as [|lg logs IH] using rev_ind; [constructor|].
  rewrite analyze_topics_snoc, analyze_step_fst.
  destruct (first_topic lg); [|done]. by apply dict_add_positive.
Qed.

Lemma map_names_shape tm items :
  Forall (λ kv, 1 ≤ kv.2)%nat items →
  Forall (λ kv, 1 ≤ kv.2)%nat (map_names tm items)
  ∧ NoDup (keys (map_names tm items)).
Proof.
  unfold map_names.
  enough (H : ∀ acc,
    Forall (λ kv, 1 ≤ kv.2)%nat acc → NoDup (keys acc) →
    Forall (λ kv, 1 ≤ kv.2)%nat items →
    let out := fold_left
      (λ cbn '(topic, cnt), dict_add cbn (resolve_name tm topic) cnt)
      items acc in
    Forall (λ kv, 1 ≤ kv.2)%nat out ∧ NoDup (keys out)).
  { intros Hitems. apply H; [constructor|apply NoDup_nil_2|done]. }
  induction items as [|[t c] items IH]; intros acc Hacc Hnd Hitems; simpl.
  - done.
  - apply Forall_cons in Hitems as [Hc Hitems]. simpl in Hc.
    apply IH; [by apply dict_add_positive|by apply dict_set_NoDup|done].
Qed.

Lemma sum_values_filter (f : string * nat → bool) (d : pydict nat) :
  (sum_list (values (List.filter f d)) ≤ sum_list (values d))%nat.
Proof.
  unfold values. induction d as [|kv d IH]; simpl; [done|].
  destruct (f kv); simpl; lia.
Qed.

Lemma map_names_length tm logs :
  (length (map_names tm (analyze_topics tm logs).1)
   ≤ length (analyze_topics tm logs).1)%nat.
Proof.
  destruct (map_names_shape tm _ (analyze_positive tm logs)) as [_ Hnd].
  assert (Hsub : keys (map_names tm (analyze_topics tm logs).1)
                 ⊆+ resolve_name tm <$> keys (analyze_topics tm logs).1).
  { apply NoDup_submseteq; [done|]. intros n (t & Ht & <-)%map_names_keys.
    by apply list_elem_of_fmap_2. }
  apply submseteq_length in Hsub.
  unfold keys in Hsub. by rewrite !length_fmap in Hsub.
Qed.

(** X15: the counters of a report are well formed: no key occurs twice
    and no stored count is 0; the keys of unknown_topics are among those
    of counts_by_topic; counts_by_name has no more keys than
    counts_by_topic (several topics can go under one name); and the
    counts of unknown_topics add up to at most those of counts_by_topic,
    which add up to at most logs_fetched. *)
Theorem report_well_formed (tm : gmap string SignatureEntry)
    (logs : list Log) (required : option (list string))
    (cid : option Z) (addr : string) (fb tb : Z) :
  let r := classify tm logs required cid addr fb tb in
  (NoDup (keys (counts_by_topic r)) ∧ NoDup (keys (counts_by_name r))
   ∧ NoDup (keys (unknown_topics r)))
  ∧ (Forall (λ kv, 1 ≤ kv.2)%nat (counts_by_topic r)
     ∧ Forall (λ kv, 1 ≤ kv.2)%nat (counts_by_name r)
     ∧ Forall (λ kv, 1 ≤ kv.2)%nat (unknown_topics r))
  ∧ (∀ t, t ∈ keys (unknown_topics r) → t ∈ keys (counts_by_topic r))
  ∧ (length (counts_by_name r) ≤ length (counts_by_topic r))%nat
  ∧ (sum_list (values (unknown_topics r))
     ≤ sum_list (values (counts_by_topic r)))%nat
  ∧ (sum_list (values (counts_by_topic r)) ≤ logs_fetched r)%nat.
Proof.
  intros r.
  destruct (classify_fields tm logs required cid addr fb tb)
    as (Hcbt & Hunk & Hcbn & _ & _ & Hlen).
  fold r in Hcbt, Hunk, Hcbn, Hlen. rewrite Hcbt, Hunk, Hcbn, Hlen.
  pose proof (analyze_positive tm logs) as Hpos.
  destruct (map_names_shape tm _ Hpos) as [Hnpos Hnnd].
  rewrite analyze_unknown.
  split; [|split; [|split; [|split; [|split]]]].
  - split; [apply analyze_NoDup|]. split; [done|].
    rewrite keys_filter_absent.
    apply NoDup_ListNoDup, List.NoDup_filter, NoDup_ListNoDup, analyze_NoDup.
  - split; [done|]. split; [done|].
    apply Forall_forall. intros kv [Hkv _]%list_elem_of_In%List.filter_In.
    rewrite Forall_forall in Hpos. by apply Hpos, list_elem_of_In.
  - intros t. rewrite keys_filter_absent.
    intros [Ht _]%list_elem_of_In%List.filter_In. by apply list_elem_of_In.
  - apply map_names_length.
  - apply sum_values_filter.
  - rewrite analyze_sum. apply List.filter_length_le.
Qed.

(** ** The verdict, read off the records *)

Lemma required_check_observed tm logs required :
  required_check required (map_names tm (analyze_topics tm logs).1)
  = match required with
    | Some reqs => List.filter (λ req, negb (observed tm logs req)) reqs
    | None => []
    end.
Proof.
  destruct required as [reqs|]; [|done].
  unfold required_check. destruct reqs as [|q reqs]; [done|].
  apply filter_ext_elem. intros x _.
  destruct (observed tm logs x) eqn:E; simpl.
  - apply bool_decide_eq_false_2. intros Hn.
    by apply Hn, present_names_observed.
  - apply bool_decide_eq_true_2. intros Hn%present_names_observed. congruence.
Qed.

Lemma filter_nil_iff {A} (f : A → bool) (l : list A) :
  List.filter f l = [] ↔ ∀ x, x ∈ l → f x = false.
Proof.
  induction l as [|x l IH]; simpl.
  - split; [by intros _ x ?%elem_of_nil|done].
  - destruct (f x) eqn:E.
    + split; [done|]. intros H. specialize (H x (list_elem_of_here _ _)).
      congruence.
    + rewrite IH. split.
      * intros H y [->|Hy]%elem_of_cons; auto.
      * intros H y Hy. apply H. by apply list_elem_of_further.
Qed.

Lemma unknown_empty_iff tm logs :
  (analyze_topics tm logs).2 = []
  ↔ ∀ t, t ∈ first_topics logs → is_Some (tm !! t).
Proof.
  rewrite analyze_unknown, filter_nil_iff. split.
  - intros H t Ht.
    assert (Hk : t ∈ keys (analyze_topics tm logs).1).
    { rewrite analyze_key_order. by apply distinct_elem. }
    unfold keys in Hk. apply list_elem_of_fmap in Hk as ([t' c] & -> & Hin).
    specialize (H _ Hin). unfold absent in H. simpl in *.
    apply bool_decide_eq_false in H. by apply not_eq_None_Some.
  - intros H [t c] Hin. unfold absent. simpl.
    apply bool_decide_eq_false. apply not_eq_None_Some, H.
    apply distinct_elem. rewrite <- (analyze_key_order tm).
    unfold keys. by apply (list_elem_of_fmap_2 fst _ (t, c)).
Qed.

(** X16: the exit code of the policy is 0 exactly when every first topic
    that occurs in the records is a key of the signature map and, if a
    required list was supplied, every name on it is observed. *)
Theorem verdict_from_records (tm : gmap string SignatureEntry)
    (logs : list Log) (required : option (list string))
    (cid : option Z) (addr : string) (fb tb : Z) :
  let r := classify tm logs required cid addr fb tb in
  exit_code (unknown_topics r) (missing_required r) = 0
  ↔ (∀ t, t ∈ first_topics logs → is_Some (tm !! t))
    ∧ (∀ reqs req, required = Some reqs → req ∈ reqs →
                   observed tm logs req = true).
Proof.
  intros r.
  destruct (classify_fields tm logs required cid addr fb tb)
    as (_ & Hunk & _ & Hmiss & _).
  fold r in Hunk, Hmiss.
  rewrite exit_code_zero, Hunk, Hmiss, unknown_empty_iff,
    required_check_observed.
  apply and_iff_compat_l. destruct required as [reqs|].
  - rewrite filter_nil_iff. split.
    + intros H reqs' req [= <-] Hin. specialize (H req Hin).
      by apply negb_false_iff in H.
    + intros H req Hin. apply negb_false_iff. by eapply H.
  - split; [by intros _ reqs req ?|done].
Qed.

Lemma filter_length_perm {A} (f : A → bool) (l l' : list A) :
  l ≡ₚ l' → length (List.filter f l) = length (List.filter f l').
Proof.
  induction 1 as [|x l l' _ IH|x y l|l1 l2 l3 _ IH1 _ IH2]; simpl.
  - done.
  - destruct (f x); simpl; by rewrite IH.
  - by destruct (f x), (f y).
  - by rewrite IH1.
Qed.

Lemma unknown_count tm logs t :
  count_of (analyze_topics tm logs).2 t
  = if unknown_to tm t then topic_count logs t else 0%nat.
Proof.
  rewrite analyze_unknown. unfold count_of. rewrite absent_dict_get.
  unfold unknown_to. case_bool_decide; [apply analyze_counts|done].
Qed.

Lemma first_topics_perm logs logs' t :
  logs ≡ₚ logs' → t ∈ first_topics logs → t ∈ first_topics logs'.
Proof.
  intros Hp (lg & Hin & Ht)%first_topics_elem.
  apply first_topics_elem. exists lg. split; [by rewrite <- Hp|done].
Qed.

Lemma observed_perm tm logs logs' n :
  logs ≡ₚ logs' → observed tm logs n = observed tm logs' n.
Proof.
  intros Hp. unfold observed. f_equal. apply bool_decide_ext.
  rewrite !resolved_names_elem.
  split; intros (lg & t & e & Hin & H); exists lg, t, e;
    (split; [|done]); [by rewrite <- Hp|by rewrite Hp].
Qed.

(** X17: the order of the records does not matter to what is counted:
    for two lists with the same records in any order every counter holds
    the same count under every key, and logs_fetched, missing_required
    and the exit code are the same. *)
Theorem record_order_irrelevant (tm : gmap string SignatureEntry)
    (logs logs' : list Log) (required : option (list string))
    (cid : option Z) (addr : string) (fb tb : Z)
    (Hperm : logs ≡ₚ logs') :
  let r := classify tm logs required cid addr fb tb in
  let r' := classify tm logs' required cid addr fb tb in
  (∀ t, count_of (counts_by_topic r) t = count_of (counts_by_topic r') t)
  ∧ (∀ t, count_of (unknown_topics r) t = count_of (unknown_topics r') t)
  ∧ (∀ n, count_of (counts_by_name r) n = count_of (counts_by_name r') n)
  ∧ logs_fetched r = logs_fetched r'
  ∧ missing_required r = missing_required r'
  ∧ exit_code (unknown_topics r) (missing_required r)
    = exit_code (unknown_topics r') (missing_required r').
Proof.
  intros r r'.
  destruct (classify_fields tm logs required cid addr fb tb)
    as (Hcbt & Hunk & Hcbn & Hmiss & _ & Hlen).
  destruct (classify_fields tm logs' required cid addr fb tb)
    as (Hcbt' & Hunk' & Hcbn' & Hmiss' & _ & Hlen').
  fold r in Hcbt, Hunk, Hcbn, Hmiss, Hlen.
  fold r' in Hcbt', Hunk', Hcbn', Hmiss', Hlen'.
  assert (Hm : missing_required r = missing_required r').
  { rewrite Hmiss, Hmiss', !required_check_observed.
    destruct required as [reqs|]; [|done].
    apply List.filter_ext. intros req. f_equal. by apply observed_perm. }
  split; [|split; [|split; [|split; [|split; [done|]]]]].
  - intros t. rewrite Hcbt, Hcbt', !analyze_counts.
    by apply filter_length_perm.
  - intros t. rewrite Hunk, Hunk', !unknown_count.
    destruct (unknown_to tm t); [by apply filter_length_perm|done].
  - intros n. rewrite Hcbn, Hcbn', !map_names_analyze.
    by apply filter_length_perm.
  - rewrite Hlen, Hlen'. by apply Permutation_length.
  - rewrite Hm. unfold exit_code. f_equal. f_equal.
    assert (Hiff : unknown_topics r = [] ↔ unknown_topics r' = []).
    { rewrite Hunk, Hunk', !unknown_empty_iff.
      split; intros H t Ht; apply H;
        [by apply (first_topics_perm logs' logs)
        |by apply (first_topics_perm logs logs')]. }
    destruct (unknown_topics r), (unknown_topics r'); try done.
    + by destruct (proj1 Hiff eq_refl).
    + by destruct (proj2 Hiff eq_refl).
Qed.

Lemma record_order_irrelevant_witness :
  missing_required
    (classify ∅ [{| topics := [[1]] |}; {| topics := [[2]] |}]
       (Some ["Transfer"]) None "0xA" 0 0)
  = missing_required
      (classify ∅ [{| topics := [[2]] |}; {| topics := [[1]] |}]
         (Some ["Transfer"]) None "0xA" 0 0).
Proof.
  refine (proj1 (proj2 (proj2 (proj2 (proj2
    (record_order_irrelevant ∅ [{| topics := [[1]] |}; {| topics := [[2]] |}]
       [{| topics := [[2]] |}; {| topics := [[1]] |}]
       (Some ["Transfer"]) None "0xA" 0 0 _)))))).
  apply perm_swap.
Defined.

(** ** Synthetic names *)

Lemma unknown_name_four b1 b2 b3 b4 rest :
  unknown_name (to_hex (b1 :: b2 :: b3 :: b4 :: rest))
  = "UNKNOWN(0x" +:+ hex [b1; b2; b3; b4] +:+ ellipsis +:+ ")".
Proof.
  unfold unknown_name, to_hex. cbn [hex]. unfold hex_byte.
  generalize hex_digit. intros hd. by destruct (hex rest).
Qed.

Lemma unknown_name_short bs :
  (length bs ≤ 4)%nat →
  unknown_name (to_hex bs) = "UNKNOWN(" +:+ to_hex bs +:+ ellipsis +:+ ")".
Proof.
  intros Hlen. destruct bs as [|b1 [|b2 [|b3 [|b4 [|b5 bs]]]]];
    try reflexivity. simpl in Hlen. lia.
Qed.

(** X18: the synthetic name of an unknown topic of four bytes or more is
    "UNKNOWN(0x" + the hex of its first four bytes + ellipsis + ")", so
    unknown topics that agree on their first four bytes go under one
    name in counts_by_name; a topic of at most four bytes is embedded
    whole. *)
Theorem unknown_label (tm : gmap string SignatureEntry) (bs bs' : bytes)
    (Hlen : (4 ≤ length bs)%nat)
    (Hsame : take 4 bs = take 4 bs')
    (Hunk : tm !! to_hex bs = None)
    (Hunk' : tm !! to_hex bs' = None) :
  resolve_name tm (to_hex bs)
  = "UNKNOWN(0x" +:+ hex (take 4 bs) +:+ ellipsis +:+ ")"
  ∧ resolve_name tm (to_hex bs') = resolve_name tm (to_hex bs)
  ∧ ∀ short, (length short ≤ 4)%nat →
      unknown_name (to_hex short)
      = "UNKNOWN(" +:+ to_hex short +:+ ellipsis +:+ ")".
Proof.
  unfold resolve_name. rewrite Hunk, Hunk'.
  destruct bs as [|b1 [|b2 [|b3 [|b4 rest]]]]; simpl in Hlen; try lia.
  destruct bs' as [|c1 [|c2 [|c3 [|c4 rest']]]]; try done.
  cbn [take] in Hsame. injection Hsame as -> -> -> ->.
  split; [apply unknown_name_four|]. split; [|apply unknown_name_short].
  by rewrite !unknown_name_four.
Qed.

Lemma unknown_label_witness :
  resolve_name ∅ (to_hex [171; 205; 239; 1; 35])
  = resolve_name ∅ (to_hex [171; 205; 239; 1; 69; 103]).
Proof.
  symmetry.
  refine (proj1 (proj2 (unknown_label ∅ [171; 205; 239; 1; 69; 103]
                          [171; 205; 239; 1; 35] _ eq_refl _ _))).
  - simpl. lia.
  - apply lookup_empty.
  - apply lookup_empty.
Defined.

(** ** An empty signature map *)

Lemma filter_all {A} (f : A → bool) (l : list A) :
  (∀ x, f x = true) → List.filter f l = l.
Proof.
  intros H. induction l as [|x l IH]; [done|]. simpl. by rewrite H, IH.
Qed.

Lemma observed_empty logs n : observed ∅ logs n = false.
Proof.
  unfold observed. apply andb_false_iff. right.
  apply bool_decide_eq_false.
  intros (lg & t & e & _ & _ & He & _)%resolved_names_elem.
  by rewrite lookup_empty in He.
Qed.

(** X19: with an empty signature map (an ABI without qualifying events)
    every topic is unknown: unknown_topics is counts_by_topic, every
    name of counts_by_name is synthetic, every required name is missing,
    and the exit code is 0 only when no record has a topic and nothing
    is required. *)
Theorem empty_map_all_unknown (logs : list Log)
    (required : option (list string))
    (cid : option Z) (addr : string) (fb tb : Z) :
  let r := classify ∅ logs required cid addr fb tb in
  unknown_topics r = counts_by_topic r
  ∧ Forall (λ n, is_synthetic n = true) (keys (counts_by_name r))
  ∧ missing_required r = default [] required
  ∧ (exit_code (unknown_topics r) (missing_required r) = 0
     ↔ first_topics logs = [] ∧ default [] required = []).
Proof.
  intros r.
  destruct (classify_fields ∅ logs required cid addr fb tb)
    as (Hcbt & Hunk & Hcbn & Hmiss & _).
  fold r in Hcbt, Hunk, Hcbn, Hmiss.
  assert (Hm : missing_required r = default [] required).
  { rewrite Hmiss, required_check_observed. destruct required as [reqs|]; [|done].
    apply filter_all. intros req. by rewrite observed_empty. }
  split; [|split; [|split; [done|]]].
  - rewrite Hunk, Hcbt, analyze_unknown. apply filter_all.
    intros kv. unfold absent. by rewrite lookup_empty, bool_decide_eq_true_2.
  - rewrite Hcbn. apply Forall_forall. intros n (t & _ & <-)%map_names_keys.
    unfold resolve_name. rewrite lookup_empty. apply unknown_name_synthetic.
  - rewrite exit_code_zero, Hm, Hunk, unknown_empty_iff.
    apply and_iff_compat_r. split.
    + intros H. destruct (first_topics logs) as [|t l]; [done|].
      destruct (H t (list_elem_of_here _ _)) as [e He].
      by rewrite lookup_empty in He.
    + intros -> t Ht. by apply elem_of_nil in Ht.
Qed.

(** ** The block range *)

(** X20: with neither [--from-block] nor [--to-block] the range is
    [max(0, latest - 5000), latest]: it starts at 0 or later, is never
    rejected as invalid, and holds at most 5001 blocks. *)
Theorem default_range (w : World) (args : Args) (latest : Z)
    (Hfrom : arg_from_block args = None)
    (Hto : arg_to_block args = None)
    (Hlatest : block_number w = Ok latest)
    (Hpos : 0 ≤ latest) :
  range_start args latest = Z.max 0 (latest - 5000)
  ∧ range_end args latest = latest
  ∧ 0 ≤ range_start args latest ≤ range_end args latest
  ∧ range_end args latest - range_start args latest + 1 ≤ 5001
  ∧ setup w args ≠ Returns (inl InvalidRange)
  ∧ (∀ su, setup w args = Returns (inr su) →
           su_from_block su = Z.max 0 (latest - 5000)
           ∧ su_to_block su = latest).
Proof.
  unfold range_start, range_end. rewrite Hfrom, Hto.
  split; [done|]. split; [done|]. split; [lia|]. split; [lia|].
  unfold setup, range_start, range_end. rewrite Hlatest, Hfrom, Hto.
  destruct (is_connected w); simpl; [|split; done].
  destruct (Z.gtb_spec (Z.max 0 (latest - 5000)) latest); [lia|].
  destruct (to_checksum_address w _); [|split; done].
  destruct (load_abi w _); [|split; done].
  destruct (build_event_signature_map _); simpl; [|split; done|split; done].
  destruct (load_required w _); [|split; done].
  split; [done|]. by intros su [= <-].
Qed.

Lemma default_range_witness :
  range_start transfer_args 4 = 0 ∧ range_end transfer_args 4 = 4.
Proof.
  destruct (default_range transfer_world transfer_args 4
              eq_refl eq_refl eq_refl ltac:(lia)) as (H1 & H2 & _).
  split; [exact H1|exact H2].
Defined.

(** X21: a [--from-block] past the latest block, with no [--to-block],
    is an invalid range: the run ends with status 1 and no report, before
    the ABI is read or any log is asked for, whatever the fuel. *)
Theorem from_block_past_latest (fuel : nat) (w : World) (args : Args)
    (f latest : Z)
    (Hconn : is_connected w = true)
    (Hlatest : block_number w = Ok latest)
    (Hfrom : arg_from_block args = Some f)
    (Hto : arg_to_block args = None)
    (Hpast : latest < f) :
  setup w args = Returns (inl InvalidRange)
  ∧ main fuel w args = Some (Returns (Fatal InvalidRange))
  ∧ exit_status (Returns (Fatal InvalidRange)) = Some 1
  ∧ emitted_report (Returns (Fatal InvalidRange)) = None.
Proof.
  assert (Hs : setup w args = Returns (inl InvalidRange)).
  { unfold setup, range_start, range_end.
    rewrite Hconn, Hlatest, Hfrom, Hto. simpl.
    by destruct (Z.gtb_spec f latest); [|lia]. }
  split; [done|]. split; [|done]. unfold main. by rewrite Hs.
Qed.

Lemma from_block_past_latest_witness :
  main 0 sample_world late_args = Some (Returns (Fatal InvalidRange)).
Proof.
  exact (proj1 (proj2 (from_block_past_latest 0 sample_world late_args 200 100
                         eq_refl eq_refl eq_refl eq_refl ltac:(lia)))).
Defined.

(** ** Exit statuses *)



(** ** Loading the required events *)



(** ** The chain id *)

Lemma setup_chain_id c w args :
  setup (with_chain_id c w) args
  = match setup w args with
    | Returns (inr su) =>
        Returns (inr {| su_chain_id :=
                          match c with Ok i => Some i | Fails _ => None end;
                        su_from_block := su_from_block su;
                        su_to_block := su_to_block su;
                        su_address := su_address su;
                        su_topic_map := su_topic_map su;
                        su_required := su_required su |})
    | o => o
    end.
Proof.
  unfold setup.
  change (is_connected (with_chain_id c w)) with (is_connected w).
  change (block_number (with_chain_id c w)) with (block_number w).
  change (to_checksum_address (with_chain_id c w))
    with (to_checksum_address w).
  change (load_abi (with_chain_id c w)) with (load_abi w).
  change (load_required (with_chain_id c w)) with (load_required w).
  change (chain_id (with_chain_id c w)) with c.
  destruct (is_connected w); simpl; [|done].
  destruct (block_number w); [|done]. destruct (_ >? _); [done|].
  destruct (to_checksum_address w _); [|done].
  destruct (load_abi w _); [|done].
  destruct (build_event_signature_map _); simpl; try done.
  by destruct (load_required w _).
Qed.

(** X24: the chain id is for show only: whatever the node answers to the
    chain-id question, value or error, the run ends the same way, with
    the same exit status and, but for its chain_id field, the same
    report. *)
Theorem chain_id_not_fatal (fuel : nat) (w : World) (args : Args)
    (c : reply Z) :
  forget_chain_id_in <$> main fuel (with_chain_id c w) args
  = forget_chain_id_in <$> main fuel w args
  ∧ (o ← main fuel (with_chain_id c w) args; exit_status o)
    = (o ← main fuel w args; exit_status o).
Proof.
  unfold main. rewrite setup_chain_id.
  destruct (setup w args) as [[why|su]|e|]; try done.
  unfold audit. simpl.
  change (get_logs (with_chain_id c w)) with (get_logs w).
  assert (Hf : ∀ a f t s, fetch_logs fuel (with_chain_id c w) a f t s
                          = fetch_logs fuel w a f t s).
  { intros a f t s. unfold fetch_logs. destruct (chunk_ranges fuel f t s); [|done].
    simpl. f_equal. generalize (@nil Log) (@nil (Z * Z)).
    induction l as [|[x y] l IH]; intros all sent; [done|]. simpl.
    destruct (to_checksum_address w a); [|done].
    destruct (get_logs w _ x y); [|done]. apply IH. }
  rewrite Hf.
  destruct (fetch_logs fuel w _ _ _ _) as [[sent [logs|e]]|]; try done.
  simpl. unfold classify.
  destruct (analyze_topics (su_topic_map su) logs) as [cbt unk]. done.
Qed.

(** ** The printed report *)

Lemma string_compare_le_trans a b c :
  (a ?= b)%string ≠ Gt → (b ?= c)%string ≠ Gt → (a ?= c)%string ≠ Gt.
Proof.
  revert b c. induction a as [|x a IH]; intros [|y b] [|z c];
    cbn [String.compare]; try done.
  unfold Ascii.compare.
  destruct (N.compare_spec (N_of_ascii x) (N_of_ascii y)) as [Exy|Exy|Exy];
    destruct (N.compare_spec (N_of_ascii y) (N_of_ascii z)) as [Eyz|Eyz|Eyz];
    try done.
  - rewrite (proj2 (N.compare_eq_iff _ _)) by congruence. apply IH.
  - intros _ _. by rewrite (proj2 (N.compare_lt_iff _ _)) by lia.
  - intros _ _. by rewrite (proj2 (N.compare_lt_iff _ _)) by lia.
  - intros _ _. by rewrite (proj2 (N.compare_lt_iff _ _)) by lia.
Qed.

Lemma name_le_total : Total name_le.
Proof. intros a b. apply String.leb_total. Qed.

Lemma name_le_trans : Transitive name_le.
Proof.
  intros a b c. unfold name_le, String.leb. intros Hab Hbc.
  pose proof (string_compare_le_trans a b c) as H.
  destruct (a ?= b)%string; destruct (b ?= c)%string;
    destruct (a ?= c)%string; try done; exfalso; by apply H.
Qed.

Lemma sorted_elem n names : n ∈ sorted names ↔ n ∈ names.
Proof. unfold sorted. by rewrite merge_sort_Permutation. Qed.

Lemma positive_key (d : pydict nat) n :
  Forall (λ kv, 1 ≤ kv.2)%nat d → n ∈ keys d ↔ (1 ≤ count_of d n)%nat.
Proof.
  intros Hd. unfold count_of. destruct (dict_get d n) as [c|] eqn:E; simpl.
  - split.
    + intros _. apply dict_get_Some_elem in E.
      rewrite Forall_forall in Hd. exact (Hd _ E).
    + intros _. destruct (decide (n ∈ keys d)) as [|Hn]; [done|].
      apply dict_get_None in Hn. congruence.
  - apply dict_get_None in E. split; [done|lia].
Qed.

Lemma names_empty_iff tm logs :
  map_names tm (analyze_topics tm logs).1 = [] ↔ first_topics logs = [].
Proof.
  split.
  - intros Hn. destruct (first_topics logs) as [|t l] eqn:E; [done|].
    assert (Ht : resolve_name tm t ∈ keys (map_names tm (analyze_topics tm logs).1)).
    { apply map_names_keys. exists t. split; [|done].
      rewrite analyze_key_order, distinct_elem, E. apply list_elem_of_here. }
    rewrite Hn in Ht. by apply elem_of_nil in Ht.
  - intros Hf. pose proof (analyze_key_order tm logs) as Hk.
    rewrite Hf in Hk. destruct (analyze_topics tm logs).1; [done|discriminate].
Qed.

Lemma count_lines_fmap (c : string → nat) names :
  count_lines ((λ n, CountLine n (c n)) <$> names) = (λ n, (n, c n)) <$> names.
Proof.
  unfold count_lines. induction names as [|n names IH]; [done|].
  cbn [fmap list_fmap omap list_omap] in *. by rewrite IH.
Qed.

Lemma count_lines_human r :
  count_lines (human_lines r)
  = (λ n, (n, count_of (counts_by_name r) n))
    <$> sorted (keys (counts_by_name r)).
Proof.
  unfold human_lines.
  assert (Htail : ∀ ls ls', count_lines ls' = [] →
                            count_lines (ls ++ ls') = count_lines ls).
  { intros ls ls' H. unfold count_lines in *.
    by rewrite omap_app, H, app_nil_r. }
  rewrite Htail.
  - destruct (counts_by_name r) as [|kv d]; [done|]. cbn [nonempty].
    exact (count_lines_fmap (count_of (kv :: d)) (sorted (keys (kv :: d)))).
  - by destruct (nonempty (unknown_topics r)),
      (nonempty (missing_required r)), (required_events r).
Qed.

Lemma count_lines_names r :
  (count_lines (human_lines r)).*1 = sorted (keys (counts_by_name r)).
Proof.
  rewrite count_lines_human, <- list_fmap_compose.
  by rewrite <- (list_fmap_id (sorted _)) at 2.
Qed.

Lemma human_lines_elem r l :
  l ∈ human_lines r
  ↔ match l with
    | CountsHeader => counts_by_name r ≠ []
    | CountLine n c =>
        n ∈ keys (counts_by_name r) ∧ c = count_of (counts_by_name r) n
    | NoEvents => counts_by_name r = []
    | UnknownHeader n =>
        unknown_topics r ≠ [] ∧ n = length (unknown_topics r)
    | UnknownSample s more =>
        unknown_topics r ≠ [] ∧ s = take 10 (keys (unknown_topics r))
        ∧ more = bool_decide (10 < length (unknown_topics r))%nat
    | NoUnknown => unknown_topics r = []
    | MissingLine m => m ≠ [] ∧ m = missing_required r
    | AllObserved => missing_required r = [] ∧ is_Some (required_events r)
    end.
Proof.
  unfold human_lines. rewrite !elem_of_app.
  assert (H1 : l ∈ (if nonempty (counts_by_name r)
                    then CountsHeader
                         :: ((λ name, CountLine name
                                (default 0%nat (dict_get (counts_by_name r) name)))
                             <$> sorted (keys (counts_by_name r)))
                    else [NoEvents])
               ↔ match l with
                 | CountsHeader => counts_by_name r ≠ []
                 | CountLine n c =>
                     n ∈ keys (counts_by_name r)
                     ∧ c = count_of (counts_by_name r) n
                 | NoEvents => counts_by_name r = []
                 | _ => False
                 end).
  { destruct (counts_by_name r) as [|kv d] eqn:E; cbn [nonempty].
    - rewrite list_elem_of_singleton.
      destruct l as [|n0 c0| |k|s more| |m|]; split; try done; intros [H _]; by apply elem_of_nil in H.
    - rewrite elem_of_cons, list_elem_of_fmap.
      destruct l as [|n0 c0| |k|s more| |m|]; split; try done;
        try (intros [?|(? & ? & _)]; done); try (intros _; by left).
      + intros [?|(n & [= -> ->] & Hn)]; [done|].
        rewrite sorted_elem in Hn. by split.
      + intros [Hn ->]. right. exists n0. split; [done|].
        by rewrite sorted_elem. }
  assert (H2 : l ∈ (if nonempty (unknown_topics r)
                    then [UnknownHeader (length (unknown_topics r));
                          UnknownSample (take 10 (keys (unknown_topics r)))
                            (bool_decide (10 < length (unknown_topics r))%nat)]
                    else [NoUnknown])
               ↔ match l with
                 | UnknownHeader n =>
                     unknown_topics r ≠ [] ∧ n = length (unknown_topics r)
                 | UnknownSample s more =>
                     unknown_topics r ≠ []
                     ∧ s = take 10 (keys (unknown_topics r))
                     ∧ more = bool_decide (10 < length (unknown_topics r))%nat
                 | NoUnknown => unknown_topics r = []
                 | _ => False
                 end).
  { destruct (unknown_topics r) as [|kv d] eqn:E; cbn [nonempty].
    - rewrite list_elem_of_singleton.
      destruct l as [|n0 c0| |k|s more| |m|]; split; try done; by intros [? _].
    - rewrite !elem_of_cons, elem_of_nil.
      destruct l as [|n0 c0| |k|s more| |m|]; split; try done; try (intros [?|[?|?]]; done).
      + intros [[= ->]|[?|?]]; done.
      + intros [_ ->]. by left.
      + intros [?|[[= -> ->]|?]]; done.
      + intros (_ & -> & ->). right. by left. }
  assert (H3 : l ∈ (if nonempty (missing_required r)
                    then [MissingLine (missing_required r)]
                    else match required_events r with
                         | Some _ => [AllObserved]
                         | None => []
                         end)
               ↔ match l with
                 | MissingLine m => m ≠ [] ∧ m = missing_required r
                 | AllObserved =>
                     missing_required r = [] ∧ is_Some (required_events r)
                 | _ => False
                 end).
  { destruct (missing_required r) as [|q ms] eqn:E; cbn [nonempty];
      [destruct (required_events r) as [reqs|]|];
      rewrite ?list_elem_of_singleton;
      destruct l as [|n0 c0| |k|s more| |m|]; split; try done;
      try (by intros ?%elem_of_nil); try (by intros [? ->]).
    - by intros [_ [? ?]].
    - by intros [= ->].
    - by intros [? _]. }
  rewrite H1, H2, H3. destruct l; tauto.
Qed.

(** X25: the count lines of the printed report name exactly the names
    under which at least one record goes, each once, with the number of
    those records, in ascending byte order of the names; the line that
    says no events were observed is printed instead exactly when no
    record has a topic. *)
Theorem count_lines_sorted (tm : gmap string SignatureEntry)
    (logs : list Log) (required : option (list string))
    (cid : option Z) (addr : string) (fb tb : Z) :
  let r := classify tm logs required cid addr fb tb in
  let shown := count_lines (human_lines r) in
  StronglySorted name_le shown.*1
  ∧ NoDup shown.*1
  ∧ (∀ n c, (n, c) ∈ shown ↔ c = name_count tm logs n ∧ (1 ≤ c)%nat)
  ∧ (NoEvents ∈ human_lines r ↔ first_topics logs = [])
  ∧ (CountsHeader ∈ human_lines r ↔ first_topics logs ≠ []).
Proof.
  intros r shown.
  destruct (classify_fields tm logs required cid addr fb tb)
    as (_ & _ & Hcbn & _).
  fold r in Hcbn.
  pose proof (analyze_positive tm logs) as Hpos.
  destruct (map_names_shape tm _ Hpos) as [Hnpos Hnnd].
  unfold shown. rewrite count_lines_names, count_lines_human, Hcbn.
  split; [|split; [|split; [|split]]].
  - apply StronglySorted_merge_sort; [apply name_le_trans|apply name_le_total].
  - unfold sorted. by rewrite merge_sort_Permutation.
  - intros n c. rewrite list_elem_of_fmap. split.
    + intros (n' & [= -> ->] & Hn). rewrite sorted_elem in Hn.
      split; [apply map_names_analyze|by apply positive_key].
    + intros [-> Hc]. exists n. rewrite map_names_analyze. split; [done|].
      rewrite sorted_elem. apply positive_key; [done|].
      by rewrite map_names_analyze.
  - rewrite (human_lines_elem r NoEvents), Hcbn. apply names_empty_iff.
  - rewrite (human_lines_elem r CountsHeader), Hcbn.
    by rewrite names_empty_iff.
Qed.

Lemma keys_nil_iff {V} (d : pydict V) : d = [] ↔ keys d = [].
Proof. by destruct d. Qed.

Lemma keys_length {V} (d : pydict V) : length (keys d) = length d.
Proof. unfold keys. apply length_map. Qed.

(** X26: the printed report says that no unknown topic was detected
    exactly when every first topic of a record is in the signature map;
    otherwise it gives the number of distinct unknown first topics and a
    sample of them: the first ten in the order in which they first
    occur, marked as cut short exactly when there are more than ten. *)
Theorem unknown_sample_line (tm : gmap string SignatureEntry)
    (logs : list Log) (required : option (list string))
    (cid : option Z) (addr : string) (fb tb : Z) :
  let r := classify tm logs required cid addr fb tb in
  let unk := unknown_first_topics tm logs in
  (NoUnknown ∈ human_lines r ↔ unk = [])
  ∧ (NoUnknown ∈ human_lines r
     ↔ ∀ t, t ∈ first_topics logs → is_Some (tm !! t))
  ∧ (∀ n, UnknownHeader n ∈ human_lines r ↔ unk ≠ [] ∧ n = length unk)
  ∧ (∀ s more, UnknownSample s more ∈ human_lines r
       ↔ unk ≠ [] ∧ s = take 10 unk
         ∧ more = bool_decide (10 < length unk)%nat).
Proof.
  intros r unk.
  destruct (classify_fields tm logs required cid addr fb tb)
    as (_ & Hunk & _).
  fold r in Hunk.
  assert (Hk : keys (unknown_topics r) = unk).
  { rewrite Hunk. apply unknown_key_order. }
  assert (Hl : length (unknown_topics r) = length unk).
  { by rewrite <- Hk, keys_length. }
  assert (He : unknown_topics r = [] ↔ unk = []).
  { by rewrite keys_nil_iff, Hk. }
  split; [|split; [|split]].
  - by rewrite (human_lines_elem r NoUnknown).
  - rewrite (human_lines_elem r NoUnknown), Hunk. apply unknown_empty_iff.
  - intros n. by rewrite (human_lines_elem r (UnknownHeader n)), He, Hl.
  - intros s more.
    by rewrite (human_lines_elem r (UnknownSample s more)), He, Hk, Hl.
Qed.

(** X27: the last block of the printed report and the exit code agree:
    the code is 0 exactly when the report says that no unknown topic was
    detected and has no line of missing events.  The line of missing
    events lists, in the order required, the required names under which
    no record was observed; when a list was supplied and every name of
    it was observed, even an empty list, the report says that all
    required events were observed; without a list it says neither. *)
Theorem verdict_lines (tm : gmap string SignatureEntry)
    (logs : list Log) (required : option (list string))
    (cid : option Z) (addr : string) (fb tb : Z) :
  let r := classify tm logs required cid addr fb tb in
  (exit_code (unknown_topics r) (missing_required r) = 0
   ↔ NoUnknown ∈ human_lines r ∧ ∀ m, MissingLine m ∉ human_lines r)
  ∧ (∀ m, MissingLine m ∈ human_lines r
          ↔ m ≠ [] ∧ ∃ reqs, required = Some reqs ∧ m = unobserved tm logs reqs)
  ∧ (AllObserved ∈ human_lines r
     ↔ ∃ reqs, required = Some reqs
               ∧ ∀ req, req ∈ reqs → observed tm logs req = true).
Proof.
  intros r.
  destruct (classify_fields tm logs required cid addr fb tb)
    as (_ & _ & _ & Hmiss & Hreq & _).
  fold r in Hmiss, Hreq. rewrite required_check_observed in Hmiss.
  split; [|split].
  - rewrite exit_code_zero, (human_lines_elem r NoUnknown).
    apply and_iff_compat_l. split.
    + intros Hm m [Hne ->]%human_lines_elem. done.
    + intros H. destruct (missing_required r) as [|q m] eqn:E; [done|].
      exfalso. apply (H (q :: m)), human_lines_elem. by rewrite E.
  - intros m. rewrite (human_lines_elem r (MissingLine m)), Hmiss.
    destruct required as [reqs|].
    + split.
      * intros [? ->]. split; [done|by exists reqs].
      * by intros [? (? & [= <-] & ->)].
    + split; [by intros [? ->]|by intros [_ (? & ? & _)]].
  - rewrite (human_lines_elem r AllObserved), Hmiss, Hreq.
    destruct required as [reqs|].
    + fold (unobserved tm logs reqs). unfold unobserved.
      rewrite filter_nil_iff. split.
      * intros [H _]. exists reqs. split; [done|]. intros req Hin.
        apply negb_false_iff. by apply H.
      * intros (? & [= <-] & H). split; [|by eexists].
        intros req Hin. apply negb_false_iff. by apply H.
    + split; [by intros [_ [? ?]]|by intros (? & ? & _)].
Qed.

(** What the sample run prints after the analysis. *)
Example transfer_printed :
  printed <$> (o ← main 6 transfer_world transfer_args; emitted_report o)
  = Some ["📊 Event counts (by name):"; "   • Transfer: 5";
          "✅ No unknown event topics detected.";
          "✅ All required events were observed at least once."].
Proof. vm_compute. reflexivity. Qed.
